(** * pysingfel.detector.base: the [DetectorBase] class

    A shallow embedding of [src/pysingfel/detector/base.py]: the correction
    and quantization pipeline, the particle placement ([maxRadius],
    [distribute]), the coherent multi-particle synthesis ([get_fxs_photons])
    and the reciprocal mesh sizing.

    Conventions of the embedding.
    - Floating-point numbers are read as real numbers ([R]); a NumPy array
      is the list of its elements (arrays are flattened, a pixel array has
      one entry per pixel), and a row of an [N x 3] array is a triple.
    - A Python exception is an [Err] result; the methods that use NumPy's
      global random generator take its state and give the new one back.
    - The collaborators that are not part of the class (the geometry
      routine, the diffraction kernel, NumPy's Poisson sampler) are
      variables of the section that holds the methods. *)

From Stdlib Require Import Reals Lra Lia List ZArith Bool Arith.
From Stdlib Require String.
Import ListNotations.
Local Open Scope R_scope.

(** ** Exceptions and fallible results *)

Inductive pyerr : Set :=
| TypeError
| ValueError
| IndexError
| AxisError
| OverflowError
| ZeroDivisionError
| RecursionError
| NonFinite. (* NumPy gives inf or nan with a warning: a value, but no real number *)

Inductive res (A : Type) : Type :=
| Ok (a : A)
| Err (e : pyerr).
Arguments Ok {A} a.
Arguments Err {A} e.

Definition bind {A B : Type} (m : res A) (f : A -> res B) : res B :=
  match m with
  | Ok a => f a
  | Err e => Err e
  end.

Declare Scope res_scope.
Delimit Scope res_scope with res.
Notation "x <- m ;; k" := (bind m (fun x => k))
  (at level 61, m at next level, right associativity) : res_scope.
Notation "' pat <- m ;; k" := (bind m (fun x => match x with pat => k end))
  (at level 61, pat pattern, m at next level, right associativity) : res_scope.
Local Open Scope res_scope.

(** ** Python scalars, vectors and complex numbers *)

(** A Python number keeps its type: NumPy treats an [int] and a [float]
    differently where it expects an axis. *)
Inductive pynum : Type :=
| PyInt (z : Z)
| PyFloat (r : R).

Definition pynum_val (n : pynum) : R :=
  match n with
  | PyInt z => IZR z
  | PyFloat r => r
  end.

(** A calibration value is a scalar or a per-pixel array. *)
Inductive pyvalue : Type :=
| Scalar (r : R)
| Array (a : list R).

Definition vec3 : Type := (R * R * R)%type.

Definition vsub (a b : vec3) : vec3 :=
  let '(a0, a1, a2) := a in
  let '(b0, b1, b2) := b in
  (a0 - b0, a1 - b1, a2 - b2).

Definition dot3 (a b : vec3) : R :=
  let '(a0, a1, a2) := a in
  let '(b0, b1, b2) := b in
  a0 * b0 + a1 * b1 + a2 * b2.

(** [sqrt(row[0]**2 + row[1]**2 + row[2]**2)] *)
Definition norm3 (row : vec3) : R :=
  let '(r0, r1, r2) := row in
  sqrt (r0 ^ 2 + r1 ^ 2 + r2 ^ 2).

Record complex : Type := mkC { re : R; im : R }.

Definition Ci : complex := mkC 0 1.
Definition RtoC (r : R) : complex := mkC r 0.
Definition Cadd (a b : complex) : complex :=
  mkC (re a + re b) (im a + im b).
Definition Cmul (a b : complex) : complex :=
  mkC (re a * re b - im a * im b) (re a * im b + im a * re b).
Definition Cexp (z : complex) : complex :=
  mkC (exp (re z) * cos (im z)) (exp (re z) * sin (im z)).
Definition Cabs (z : complex) : R :=
  sqrt (re z ^ 2 + im z ^ 2).

(** ** NumPy element-wise operations on flat arrays *)

Definition zip_with {A B D : Type} (f : A -> B -> D)
  (a : list A) (b : list B) : list D :=
  map (fun ab => f (fst ab) (snd ab)) (combine a b).

(** A binary ufunc giving a new array: equal shapes, or one operand of
    length one is stretched; anything else does not broadcast. *)
Definition broadcast2 {A B D : Type} (f : A -> B -> D)
  (a : list A) (b : list B) : res (list D) :=
  if (length a =? length b)%nat then Ok (zip_with f a b)
  else match a, b with
       | [x], _ => Ok (map (f x) b)
       | _, [y] => Ok (map (fun x => f x y) a)
       | _, _ => Err ValueError
       end.

(** An in-place ufunc ([a *= b], [a += b]): the result has the shape of
    [a], so only [b] may be stretched. *)
Definition broadcast_inplace {A B : Type} (f : A -> B -> A)
  (a : list A) (b : list B) : res (list A) :=
  if (length a =? length b)%nat then Ok (zip_with f a b)
  else match b with
       | [y] => Ok (map (fun x => f x y) a)
       | _ => Err ValueError
       end.

Definition np_multiply (a b : list R) : res (list R) :=
  broadcast2 Rmult a b.

Definition np_add (a b : list R) : res (list R) :=
  broadcast2 Rplus a b.

(** [np.multiply(pattern, attr)] where the attribute may still be [None].
    With [None] NumPy multiplies entry by entry on Python objects:
    [float * None] is a [TypeError], and a pattern with no entry gives an
    empty array without any product being formed. *)
Definition np_multiply_attr (a : list R) (attr : option (list R))
  : res (list R) :=
  match attr with
  | Some b => np_multiply a b
  | None =>
      match a with
      | [] => Ok []
      | _ :: _ => Err TypeError
      end
  end.

Definition Rsum (l : list R) : R := fold_left Rplus l 0.

(** [np.mean(a, axis=0)] of a [K x 3] array. *)
Definition mean_axis0 (a : list vec3) : vec3 :=
  let k := INR (length a) in
  (Rsum (map (fun v => fst (fst v)) a) / k,
   Rsum (map (fun v => snd (fst v)) a) / k,
   Rsum (map snd a) / k).

(** [np.max] of a flat array; an empty array has no maximum. *)
Definition np_max (a : list R) : res R :=
  match a with
  | [] => Err ValueError
  | x :: l => Ok (fold_left Rmax l x)
  end.

(** [np.min(a, axis)] of a scalar [a].  The second positional argument
    of [np.min] is the axis: it must be an integer ([TypeError]
    otherwise), and for a zero-dimensional operand only the axes [0] and
    [-1] are accepted. *)
Definition np_min (a axis : pynum) : res R :=
  match axis with
  | PyFloat _ => Err TypeError
  | PyInt k =>
      if (Z.eqb k 0 || Z.eqb k (-1))%bool then Ok (pynum_val a)
      else Err AxisError
  end.

(** Division of NumPy floats, read over the reals.  With a zero divisor
    NumPy gives inf or nan (and a warning) and the caller goes on with
    it; that outcome is no real number and is kept apart as [NonFinite],
    which is not an exception of the code. *)
Definition np_divide (x y : R) : res R :=
  if Req_dec_T y 0 then Err NonFinite else Ok (x / y).

(** Division of Python numbers ([ZeroDivisionError]; between NumPy scalars
    the quotient would be inf or nan, no real number either). *)
Definition py_div (x y : R) : res R :=
  if Req_dec_T y 0 then Err ZeroDivisionError else Ok (x / y).

Definition index {A : Type} (l : list A) (i : nat) : res A :=
  match nth_error l i with
  | Some x => Ok x
  | None => Err IndexError
  end.

(** ** NumPy's global random generator *)

(** The generator is the stream of the unit samples it will give (each in
    [[0, 1)]) and the number of samples already taken. *)
Record rng : Type := mkRng { tape : nat -> R; pos : nat }.

Definition tape_ok (g : rng) : Prop := forall n, 0 <= tape g n < 1.

Definition advance (k : nat) (g : rng) : rng :=
  mkRng (tape g) (pos g + k).

Definition random_sample (g : rng) : R * rng :=
  (tape g (pos g), advance 1 g).

(** [np.random.uniform(low, high)]: [low + (high - low) * random_sample()]. *)
Definition np_random_uniform (low high : R) (g : rng) : R * rng :=
  let '(u, g') := random_sample g in
  (low + (high - low) * u, g').

(** ** The detector and its collaborators' data *)

Record Beam : Type := mkBeam {
  get_wavevector : vec3;
  Polarization : vec3;
  get_photons_per_pulse : R;
  get_focus_area : R
}.

Record DetectorBase : Type := mkDetector {
  distance : R;
  pixel_width : pynum;
  pixel_height : pynum;
  pixel_area : R;
  orientation : vec3;
  pixel_position : option (list vec3);
  pixel_position_reciprocal : option (list vec3);
  pixel_distance_reciprocal : option (list R);
  solid_angle_per_pixel : option (list R);
  polarization_correction : option (list R);
  linear_correction : option (list R);
  pixel_rms : pyvalue
}.

(** [__init__] *)
Definition DetectorBase_init : DetectorBase :=
  mkDetector 1 (PyInt 0) (PyInt 0) 0 (0, 0, 1)
    None None None None None None (Scalar 0).

(** The Thomson scattering factor, set once in [__init__]. *)
Definition Thomson_factor : R :=
  2.817895019671143 * 2.817895019671143 * 1e-30.

(** The [return_type] strings ["intensity"] and ["complex_field"]. *)
Inductive return_type : Set := rt_intensity | rt_complex_field.

Definition field_of (rt : return_type) : Type :=
  match rt with
  | rt_intensity => list R
  | rt_complex_field => list complex
  end.

Definition Rltb (x y : R) : bool :=
  if Rlt_dec x y then true else false.

(** ** The methods of [DetectorBase] *)

Section Detector.

(** The particle model: only its atom positions are read here. *)
Variable Particle : Type.
Variable atom_pos : Particle -> list vec3.

(** [pysingfel.geometry.get_reciprocal_position_and_correction], called
    with [pixel_position], [polarization], [wave_vector], [pixel_area]
    and [orientation]. *)
Variable get_reciprocal_position_and_correction :
  option (list vec3) -> vec3 -> vec3 -> R -> vec3 ->
  res (list vec3 * list R * list R * list R).

(** [pysingfel.gpu.diffraction.calculate_diffraction_pattern_gpu]. *)
Variable calculate_diffraction_pattern_gpu :
  option (list vec3) -> Particle -> forall rt : return_type, res (field_of rt).

(** [np.random.poisson] on an array of means. *)
Variable np_random_poisson : list R -> rng -> res (list Z * rng).

Definition set_reciprocal (d : DetectorBase)
  (ppr : list vec3) (pdr pol sa : list R) : DetectorBase :=
  mkDetector (distance d) (pixel_width d) (pixel_height d) (pixel_area d)
    (orientation d) (pixel_position d)
    (Some ppr) (Some pdr) (Some sa) (Some pol)
    (linear_correction d) (pixel_rms d).

Definition set_linear_correction (d : DetectorBase) (lc : list R)
  : DetectorBase :=
  mkDetector (distance d) (pixel_width d) (pixel_height d) (pixel_area d)
    (orientation d) (pixel_position d)
    (pixel_position_reciprocal d) (pixel_distance_reciprocal d)
    (solid_angle_per_pixel d) (polarization_correction d)
    (Some lc) (pixel_rms d).

(** The detector is updated in place: the object as the call leaves it
    is returned beside the outcome. *)
Definition initialize_pixels_with_beam (d : DetectorBase) (beam : Beam)
  : DetectorBase * res unit :=
  let wavevector := get_wavevector beam in
  let polar := Polarization beam in
  match py_div (get_photons_per_pulse beam) (get_focus_area beam) with
  | Err e => (d, Err e)
  | Ok intensity =>
      match get_reciprocal_position_and_correction
              (pixel_position d) polar wavevector
              (pixel_area d) (orientation d) with
      | Err e => (d, Err e)
      | Ok (ppr, pdr, pol, sa) =>
          let d1 := set_reciprocal d ppr pdr pol sa in
          match np_multiply pol sa with
          | Err e => (d1, Err e)
          | Ok prod =>
              (set_linear_correction d1
                 (map (Rmult (intensity * Thomson_factor)) prod),
               Ok tt)
          end
      end
  end.

(** The [device] argument of the synthesis methods only triggers a
    deprecation message; it is left out. *)
Definition get_pattern_without_corrections (d : DetectorBase)
  (particle : Particle) (rt : return_type) : res (field_of rt) :=
  calculate_diffraction_pattern_gpu (pixel_position_reciprocal d) particle rt.

Definition get_intensity_field (d : DetectorBase) (particle : Particle)
  : res (list R) :=
  diffraction_pattern <-
    calculate_diffraction_pattern_gpu (pixel_position_reciprocal d)
      particle rt_intensity;;
  np_multiply_attr diffraction_pattern (linear_correction d).

(** One uniform sample per entry of [high], in order. *)
Fixpoint uniform_array (highs : list R) (g : rng) : list R * rng :=
  match highs with
  | [] => ([], g)
  | h :: t =>
      let '(x, g1) := np_random_uniform 0 h g in
      let '(xs, g2) := uniform_array t g1 in
      (x :: xs, g2)
  end.

(** [pattern + np.random.uniform(0, 2 * np.sqrt(3 * self.pixel_rms))].
    The square root of a negative number is nan, and [uniform] refuses a
    range that is not finite. *)
Definition add_static_noise (d : DetectorBase) (pattern : list R) (g : rng)
  : res (list R * rng) :=
  match pixel_rms d with
  | Scalar r =>
      if Rltb (3 * r) 0 then Err OverflowError
      else
        let '(x, g1) := np_random_uniform 0 (2 * sqrt (3 * r)) g in
        Ok (map (fun v => v + x) pattern, g1)
  | Array rs =>
      if existsb (fun r => Rltb (3 * r) 0) rs then Err OverflowError
      else
        let '(xs, g1) :=
          uniform_array (map (fun r => 2 * sqrt (3 * r)) rs) g in
        out <- np_add pattern xs;;
        Ok (out, g1)
  end.



Definition add_solid_angle_correction (d : DetectorBase) (pattern : list R)
  : res (list R) :=
  np_multiply_attr pattern (solid_angle_per_pixel d).

Definition add_polarization_correction (d : DetectorBase) (pattern : list R)
  : res (list R) :=
  np_multiply_attr pattern (polarization_correction d).

Definition add_correction (d : DetectorBase) (pattern : list R)
  : res (list R) :=
  np_multiply_attr pattern (linear_correction d).

Definition add_quantization (pattern : list R) (g : rng)
  : res (list Z * rng) :=
  np_random_poisson pattern g.

Definition add_correction_and_quantization (d : DetectorBase)
  (pattern : list R) (g : rng) : res (list Z * rng) :=
  m <- np_multiply_attr pattern (linear_correction d);;
  np_random_poisson m g.

Definition get_photons (d : DetectorBase) (particle : Particle) (g : rng)
  : res (list Z * rng) :=
  raw_data <- get_pattern_without_corrections d particle rt_intensity;;
  add_correction_and_quantization d raw_data g.

(** *** Placement *)

(** The particle counts: the mapping in its iteration order.  A count is
    a Python integer: nothing keeps it from being zero or negative. *)
Definition counts : Type := list (Particle * Z).

Definition maxRadius (particles : counts) : R :=
  fold_left
    (fun radius_current pc =>
       let centre := mean_axis0 (atom_pos (fst pc)) in
       let radius_arr := map (fun a => vsub a centre) (atom_pos (fst pc)) in
       fold_left
         (fun radius_current row =>
            let radius := norm3 row in
            if Rltb radius_current radius then radius else radius_current)
         radius_arr radius_current)
    particles 0.

(** [range(count)] is empty for a count that is not positive. *)
Definition expand_state (particles : counts) : list Particle :=
  flat_map (fun pc => repeat (fst pc) (Z.to_nat (snd pc))) particles.

(** [sum(particles.values())] *)
Definition total_count (particles : counts) : Z :=
  fold_left Z.add (map snd particles) 0%Z.

(** The number of rows of [np.zeros((N, 3))] and the length of
    [range(N)], for an [N] that is not negative. *)
Definition row_count (particles : counts) : nat :=
  Z.to_nat (total_count particles).

(** The loop that fills [coords]: three draws per row. *)
Fixpoint sample_coords (n : nat) (beam_focus_radius jet_radius : R) (g : rng)
  : list vec3 * rng :=
  match n with
  | O => ([], g)
  | S n' =>
      let '(u0, g0) := np_random_uniform (-1) 1 g in
      let '(u1, g1) := np_random_uniform (-1) 1 g0 in
      let '(u2, g2) := np_random_uniform (-1) 1 g1 in
      let '(rest, g3) := sample_coords n' beam_focus_radius jet_radius g2 in
      ((beam_focus_radius * u0, beam_focus_radius * u1, jet_radius * u2)
         :: rest, g3)
  end.

Definition euclidean (a b : vec3) : R := norm3 (vsub a b).

(** [scipy.spatial.distance.cdist(XA, XB, 'euclidean')] *)
Definition cdist (xa xb : list vec3) : list (list R) :=
  map (fun a => map (fun b => euclidean a b) xb) xa.

(** [dist_matrix < 2 * radius_max] *)
Definition collision_matrix (dist_matrix : list (list R)) (radius_max : R)
  : list (list bool) :=
  map (map (fun x => Rltb x (2 * radius_max))) dist_matrix.

(** [[collision[i][j] for i in range(N) for j in range(N) if j > i]] *)
Definition checkList (N : nat) (collision : list (list bool)) : list bool :=
  flat_map
    (fun i =>
       flat_map
         (fun j =>
            if (i <? j)%nat then [nth j (nth i collision []) false] else [])
         (seq 0 N))
    (seq 0 N).

(** The check list of a candidate coordinate array. *)
Definition candidate_checkList (particles : counts) (coords : list vec3)
  : list bool :=
  checkList (row_count particles)
    (collision_matrix (cdist coords coords) (maxRadius particles)).

(** [depth] is the number of stack frames left: Python raises
    [RecursionError] when they are used up.  [np.zeros] raises
    [ValueError] for a negative number of rows.  The value of the
    recursive call is not used; only its effect on the generator and its
    exceptions remain. *)
Fixpoint distribute (depth : nat) (particles : counts)
  (beam_focus_radius jet_radius : R) (g : rng)
  : res (list Particle * list vec3 * rng) :=
  match depth with
  | O => Err RecursionError
  | S depth' =>
      let state := expand_state particles in
      let N := total_count particles in
      if (N <? 0)%Z then Err ValueError
      else
        let '(coords, g1) :=
          sample_coords (Z.to_nat N) beam_focus_radius jet_radius g in
        if existsb (fun item => eqb item true)
             (candidate_checkList particles coords)
        then
          '(_, _, g2) <-
            distribute depth' particles beam_focus_radius jet_radius g1;;
          Ok (state, coords, g2)
        else Ok (state, coords, g1)
  end.

(** *** Coherent synthesis *)

(** [np.exp(1j * 2 * np.pi * 1e-10 * np.dot(q, coord))] *)
Definition phase_array (q : list vec3) (coord : vec3) : list complex :=
  map
    (fun qv =>
       Cexp (Cmul (Cmul (Cmul (Cmul Ci (RtoC 2)) (RtoC PI)) (RtoC 1e-10))
               (RtoC (dot3 qv coord))))
    q.

Definition np_dot_attr (q : option (list vec3)) : res (list vec3) :=
  match q with
  | Some a => Ok a
  | None => Err TypeError
  end.

(** The body of the loop of [get_fxs_photons], over the indices left. *)
Fixpoint fxs_loop (d : DetectorBase) (state : list Particle)
  (coords : list vec3) (indices : list nat) (raw_data : option (list complex))
  : res (option (list complex)) :=
  match indices with
  | [] => Ok raw_data
  | i :: rest =>
      particle <- index state i;;
      this_data <- get_pattern_without_corrections d particle rt_complex_field;;
      coord <- index coords i;;
      q <- np_dot_attr (pixel_position_reciprocal d);;
      this_data <- broadcast_inplace Cmul this_data (phase_array q coord);;
      match raw_data with
      | None => fxs_loop d state coords rest (Some this_data)
      | Some acc =>
          acc' <- broadcast_inplace Cadd acc this_data;;
          fxs_loop d state coords rest (Some acc')
      end
  end.

(** [np.square(np.abs(raw_data))] *)
Definition square_abs (a : list complex) : list R :=
  map (fun z => Cabs z * Cabs z) a.

Definition get_fxs_photons (depth : nat) (d : DetectorBase)
  (particles : counts) (beam_focus_radius jet_radius : R) (g : rng)
  : res (list Z * rng) :=
  '(state, coords, g1) <-
    distribute depth particles beam_focus_radius jet_radius g;;
  raw_data <- fxs_loop d state coords (seq 0 (length state)) None;;
  match raw_data with
  | None => Err TypeError
  | Some raw => add_correction_and_quantization d (square_abs raw) g1
  end.

(** *** Reciprocal mesh sizing *)

Definition preferred_voxel_length (d : DetectorBase) (wave_vector : list R)
  : res R :=
  let voxel_length := sqrt (Rsum (map (fun x => x * x) wave_vector)) in
  m <- np_min (pixel_width d) (pixel_height d);;
  np_divide voxel_length (distance d * m).

(** [np.floor_divide] followed by [int], read over the reals: the floor
    of the exact quotient, where the floats round it first.  A zero
    divisor gives inf or nan, of which [int] makes no integer. *)
Definition np_floor_divide (x y : R) : res Z :=
  if Req_dec_T y 0 then Err NonFinite else Ok (Int_part (x / y)).

Definition np_max_attr (a : option (list R)) : res R :=
  match a with
  | Some l => np_max l
  | None => Err TypeError
  end.

Definition preferred_reciprocal_mesh_number (d : DetectorBase)
  (wave_vector : list R) : res Z :=
  voxel_length <- preferred_voxel_length d wave_vector;;
  reciprocal_space_range <- np_max_attr (pixel_distance_reciprocal d);;
  q <- np_floor_divide reciprocal_space_range voxel_length;;
  let voxel_half_num_1d := (q + 1)%Z in
  Ok (2 * voxel_half_num_1d + 1)%Z.

(** ** The properties, in the words of the specification *)

(** No two rows of [coords] are closer than [2 * radius_max]. *)
Definition non_overlapping (radius_max : R) (coords : list vec3) : Prop :=
  forall i j ci cj,
    i <> j ->
    nth_error coords i = Some ci ->
    nth_error coords j = Some cj ->
    2 * radius_max <= euclidean ci cj.

(** Entry [i] of an array that broadcasting may have stretched. *)
Definition bnth (i : nat) (a : list R) : R :=
  if (length a =? 1)%nat then nth 0 a 0 else nth i a 0.

(** The attribute is set to an array of the shape of [pattern]. *)
Definition same_shape (attr : option (list R)) (pattern : list R) : bool :=
  match attr with
  | Some a => (length a =? length pattern)%nat
  | None => false
  end.

(** The scalar part of the linear correction. *)
Definition intensity_scale (beam : Beam) : R :=
  get_photons_per_pulse beam / get_focus_area beam * Thomson_factor.

(** [exp(i * 2 pi * 1e-10 * (q . coordinate))] *)
Definition phase_factor (qv coord : vec3) : complex :=
  let theta := 2 * PI * 1e-10 * dot3 qv coord in
  mkC (cos theta) (sin theta).

(** The complex field of one placed particle, phase-shifted. *)
Definition shifted_field (d : DetectorBase) (particle : Particle)
  (coord : vec3) : res (list complex) :=
  field <- get_pattern_without_corrections d particle rt_complex_field;;
  q <- np_dot_attr (pixel_position_reciprocal d);;
  broadcast_inplace Cmul field (map (fun qv => phase_factor qv coord) q).

Fixpoint sequence {A : Type} (l : list (res A)) : res (list A) :=
  match l with
  | [] => Ok []
  | m :: rest =>
      x <- m;;
      xs <- sequence rest;;
      Ok (x :: xs)
  end.

Definition squared_magnitude (z : complex) : R := re z ^ 2 + im z ^ 2.

(** Entry [k] of an array of any element type that broadcasting may have
    stretched. *)
Definition entry {A : Type} (default : A) (a : list A) (k : nat) : A :=
  if (length a =? 1)%nat then nth 0 a default else nth k a default.

Definition origin : vec3 := (0, 0, 0).

(** The phase of a particle at [coord] on pixel [k]:
    [2 pi * 1e-10 * (q_k . coord)]. *)
Definition phase_angle (q : list vec3) (coord : vec3) (k : nat) : R :=
  2 * PI * 1e-10 * dot3 (entry origin q k) coord.

(** The real and the imaginary part of the amplitude on pixel [k]: the
    sum over the placed particles of
    [(a + i b) (cos t + i sin t) = (a cos t - b sin t) + i (a sin t + b cos t)],
    with [a + i b] the complex field of the particle and [t] its phase. *)
Definition amplitude_re (q : list vec3)
  (placed : list (list complex * vec3)) (k : nat) : R :=
  Rsum
    (map
       (fun fc =>
          let z := entry (mkC 0 0) (fst fc) k in
          let t := phase_angle q (snd fc) k in
          re z * cos t - im z * sin t)
       placed).

Definition amplitude_im (q : list vec3)
  (placed : list (list complex * vec3)) (k : nat) : R :=
  Rsum
    (map
       (fun fc =>
          let z := entry (mkC 0 0) (fst fc) k in
          let t := phase_angle q (snd fc) k in
          re z * sin t + im z * cos t)
       placed).

(** The intensity on pixel [k]: the squared magnitude of the amplitude. *)
Definition pixel_intensity (q : list vec3)
  (placed : list (list complex * vec3)) (k : nat) : R :=
  amplitude_re q placed k ^ 2 + amplitude_im q placed k ^ 2.

(** The fields can be shifted and summed pixel by pixel: each has the
    shape of the reciprocal positions (or these are a single row), and the
    shape of the first field (or is a single value). *)
Definition shapes_agree (Q L : nat) (fields : list (list complex)) : bool :=
  forallb
    (fun f =>
       ((length f =? Q)%nat || (Q =? 1)%nat)
       && ((length f =? L)%nat || (length f =? 1)%nat))
    fields.

(** Particle [i] is placed at row [i]: every particle needs a row. *)
Definition pair_up (state : list Particle) (coords : list vec3)
  : res (list (Particle * vec3)) :=
  if (length state =? length coords)%nat then Ok (combine state coords)
  else Err IndexError.

(** The computation in the words of the specification: place the
    particles, take the complex field of each, sum the phase-shifted fields
    pixel by pixel, square the magnitude, correct and quantize.  There is
    no sum of no field. *)
Definition fxs_reference (depth : nat) (d : DetectorBase)
  (particles : counts) (beam_focus_radius jet_radius : R) (g : rng)
  : res (list Z * rng) :=
  '(state, coords, g1) <-
    distribute depth particles beam_focus_radius jet_radius g;;
  placed <- pair_up state coords;;
  fields <-
    sequence
      (map
         (fun pc => get_pattern_without_corrections d (fst pc) rt_complex_field)
         placed);;
  match fields with
  | [] => Err TypeError
  | f0 :: _ =>
      q <- np_dot_attr (pixel_position_reciprocal d);;
      if shapes_agree (length q) (length f0) fields
      then
        add_correction_and_quantization d
          (map (pixel_intensity q (combine fields (map snd placed)))
             (seq 0 (length f0)))
          g1
      else Err ValueError
  end.

(** The loop of [get_fxs_photons] read over the placed particles
    themselves instead of their indices. *)
Fixpoint fxs_fold (d : DetectorBase) (placed : list (Particle * vec3))
  (raw_data : option (list complex)) : res (option (list complex)) :=
  match placed with
  | [] => Ok raw_data
  | pc :: rest =>
      this_data <- shifted_field d (fst pc) (snd pc);;
      match raw_data with
      | None => fxs_fold d rest (Some this_data)
      | Some acc =>
          acc' <- broadcast_inplace Cadd acc this_data;;
          fxs_fold d rest (Some acc')
      end
  end.

(** ** Example configurations *)

Definition toy_geometry (_ : option (list vec3)) (_ _ : vec3) (_ : R)
  (_ : vec3) : res (list vec3 * list R * list R * list R) :=
  Ok ([(0, 0, 1)], [1], [3], [2]).

Definition toy_beam : Beam := mkBeam (0, 0, 1) (1, 0, 0) 1 1.

Definition toy_kernel (_ : option (list vec3)) (_ : list vec3)
  (rt : return_type) : res (field_of rt) :=
  match rt with
  | rt_intensity => Ok [1]
  | rt_complex_field => Ok [mkC 1 0]
  end.

Definition toy_poisson (lam : list R) (g : rng) : res (list Z * rng) :=
  Ok (map (fun _ => 0%Z) lam, advance (length lam) g).

(** A particle of two atoms, two length units apart. *)
Definition dimer : list vec3 := [(0, 0, 0); (2, 0, 0)].

(** Two such particles in the beam. *)
Definition two_dimers : list (list vec3 * Z) := [(dimer, 2%Z)].

Definition half_tape : rng := mkRng (fun _ => 1 / 2) 0.

(** Samples that put two particles [sqrt 3] apart at first, and far apart
    at the second attempt (with radii 4: the rows (0, -2, 2) and (1, -1, 3),
    then (-4, -3, -3.5) and (3.5, 2.5, 1.5)). *)
Definition collide_then_apart : rng :=
  mkRng
    (fun n =>
       nth n [1 / 2; 1 / 4; 3 / 4; 5 / 8; 3 / 8; 7 / 8;
              0; 1 / 8; 1 / 16; 15 / 16; 13 / 16; 11 / 16] (1 / 2))
    0.

Definition float_pitch_detector : DetectorBase :=
  mkDetector 1 (PyFloat 1e-4) (PyFloat 1e-4) 1e-8 (0, 0, 1)
    None None (Some [1]) None None None (Scalar 0).

(** The detector [initialize_pixels_with_beam] makes of a fresh one with
    [toy_geometry] and [toy_beam]. *)
Definition toy_detector : DetectorBase :=
  mkDetector 1 (PyInt 0) (PyInt 0) 0 (0, 0, 1) None
    (Some [(0, 0, 1)]) (Some [1]) (Some [2]) (Some [3])
    (Some [1 / 1 * Thomson_factor * (3 * 2)]) (Scalar 0).


(** ** Auxiliary facts *)

Lemma Thomson_factor_pos : 0 < Thomson_factor.
Proof. unfold Thomson_factor. lra. Qed.

Lemma Rltb_true (x y : R) : x < y -> Rltb x y = true.
Proof. intros H. unfold Rltb. destruct (Rlt_dec x y); [reflexivity | contradiction]. Qed.

Lemma Rltb_false (x y : R) : y <= x -> Rltb x y = false.
Proof. intros H. unfold Rltb. destruct (Rlt_dec x y); [lra | reflexivity]. Qed.

Lemma norm3_eq (a b c r : R) :
  0 <= r -> a ^ 2 + b ^ 2 + c ^ 2 = r ^ 2 -> norm3 (a, b, c) = r.
Proof.
  intros Hr H. unfold norm3. rewrite H.
  replace (r ^ 2) with (r * r) by ring.
  apply sqrt_square. exact Hr.
Qed.

Lemma norm3_ge (a b c r : R) :
  0 <= r -> r ^ 2 <= a ^ 2 + b ^ 2 + c ^ 2 -> r <= norm3 (a, b, c).
Proof.
  intros Hr H. unfold norm3.
  rewrite <- (sqrt_square r Hr).
  apply sqrt_le_1_alt. lra.
Qed.

Lemma norm3_lt (a b c r : R) :
  0 <= r -> a ^ 2 + b ^ 2 + c ^ 2 < r ^ 2 -> norm3 (a, b, c) < r.
Proof.
  intros Hr H. unfold norm3.
  rewrite <- (sqrt_square r Hr).
  apply sqrt_lt_1_alt. nra.
Qed.

Lemma zip_with_length {A B D : Type} (f : A -> B -> D) (a : list A) (b : list B) :
  length a = length b -> length (zip_with f a b) = length a.
Proof.
  intros H. unfold zip_with.
  rewrite length_map, length_combine, H. apply Nat.min_id.
Qed.

Lemma zip_with_nth {A B D : Type} (f : A -> B -> D) (a : list A) (b : list B)
  (da : A) (db : B) (dd : D) (i : nat) :
  length a = length b -> (i < length a)%nat ->
  nth i (zip_with f a b) dd = f (nth i a da) (nth i b db).
Proof.
  revert b i. induction a as [|x a IH]; intros [|y b] i Hlen Hi; simpl in *; try lia.
  destruct i as [|i]; [reflexivity|].
  apply IH; lia.
Qed.
Lemma nth_tabulate {A : Type} (h : nat -> A) (n k : nat) (d : A) :
  (k < n)%nat -> nth k (map h (seq 0 n)) d = h k.
Proof.
  intros H.
  rewrite (nth_indep _ d (h 0%nat)) by (rewrite length_map, length_seq; exact H).
  rewrite map_nth, seq_nth by exact H. reflexivity.
Qed.

Lemma tabulate_nth {A : Type} (l : list A) (d : A) :
  l = map (fun k => nth k l d) (seq 0 (length l)).
Proof.
  apply (nth_ext _ _ d d).
  - rewrite length_map, length_seq. reflexivity.
  - intros n Hn. rewrite nth_tabulate by exact Hn. reflexivity.
Qed.

(** ** The correction and quantization pipeline *)

(** C2. The combined call is the two primitives in sequence: from the same
    generator state, [add_correction_and_quantization] gives what
    [add_quantization] gives on the result of [add_correction], and both are
    the Poisson draw whose means are the element-wise product of the pattern
    and the linear correction.  While the linear correction is not set,
    both raise [TypeError] on a pattern with an entry, and both sample on
    the empty array for an empty pattern. *)
Theorem add_correction_and_quantization_sequential
  (d : DetectorBase) (pattern : list R) (g : rng) :
  add_correction_and_quantization d pattern g
  = (corrected <- add_correction d pattern;; add_quantization corrected g)
  /\ add_correction_and_quantization d pattern g
     = match linear_correction d with
       | None =>
           match pattern with
           | [] => np_random_poisson [] g
           | _ :: _ => Err TypeError
           end
       | Some lc =>
           means <- np_multiply pattern lc;;
           np_random_poisson means g
       end.
Proof.
  split.
  - reflexivity.
  - unfold add_correction_and_quantization, np_multiply_attr.
    destruct (linear_correction d) as [lc|]; [reflexivity|].
    destruct pattern; reflexivity.
Qed.

Lemma broadcast2_length {A B D : Type} (f : A -> B -> D)
  (a : list A) (b : list B) (l : list D) :
  broadcast2 f a b = Ok l ->
  length l = if (length a =? 1)%nat then length b else length a.
Proof.
  unfold broadcast2.
  destruct (length a =? length b)%nat eqn:E.
  - apply Nat.eqb_eq in E. intros [= <-].
    rewrite zip_with_length by exact E.
    destruct (length a =? 1)%nat; congruence.
  - apply Nat.eqb_neq in E.
    destruct a as [|x [|x' a]]; destruct b as [|y [|y' b]];
      simpl in *; try discriminate; intros [= <-]; simpl;
      rewrite ?length_map; reflexivity.
Qed.

Lemma np_multiply_nth (a b l : list R) (i : nat) :
  np_multiply a b = Ok l -> (i < length l)%nat ->
  nth i l 0 = bnth i a * bnth i b.
Proof.
  unfold np_multiply, broadcast2, bnth.
  destruct (length a =? length b)%nat eqn:E.
  - apply Nat.eqb_eq in E. intros [= <-] Hi.
    rewrite zip_with_length in Hi by exact E.
    rewrite (zip_with_nth Rmult a b 0 0 0 i E Hi).
    rewrite <- E.
    destruct (length a =? 1)%nat eqn:E1; [|reflexivity].
    apply Nat.eqb_eq in E1.
    replace i with 0%nat by lia. reflexivity.
  - apply Nat.eqb_neq in E.
    destruct a as [|x [|x' a]]; destruct b as [|y [|y' b]];
      simpl in *; try discriminate; try lia; intros [= <-] Hi; simpl in *;
      try lia.
    + destruct i as [|[|i]]; try reflexivity.
      change (nth i (map (Rmult x) b) 0 = x * nth i b 0).
      rewrite <- (Rmult_0_r x) at 1. apply map_nth.
    + destruct i as [|[|i]]; try reflexivity.
      change (nth i (map (fun v => v * y) a) 0 = nth i a 0 * y).
      rewrite <- (Rmult_0_l y) at 1.
      apply (map_nth (fun v => v * y)).
Qed.

Lemma initialize_pixels_with_beam_ok (d d' : DetectorBase) (beam : Beam) :
  initialize_pixels_with_beam d beam = (d', Ok tt) ->
  exists ppr pdr pol sa prod,
    get_focus_area beam <> 0
    /\ get_reciprocal_position_and_correction (pixel_position d)
         (Polarization beam) (get_wavevector beam) (pixel_area d)
         (orientation d) = Ok (ppr, pdr, pol, sa)
    /\ np_multiply pol sa = Ok prod
    /\ d' = set_linear_correction (set_reciprocal d ppr pdr pol sa)
              (map (Rmult (intensity_scale beam)) prod).
Proof.
  unfold initialize_pixels_with_beam, py_div, intensity_scale.
  destruct (Req_dec_T (get_focus_area beam) 0) as [|Harea]; [discriminate|].
  destruct (get_reciprocal_position_and_correction _ _ _ _ _)
    as [[[[ppr pdr] pol] sa]|e]; [|discriminate].
  destruct (np_multiply pol sa) as [prod|e] eqn:Hprod; [|discriminate].
  intros [= <-].
  exists ppr, pdr, pol, sa, prod. repeat split; assumption.
Qed.

(** C4. When [initialize_pixels_with_beam] has completed, the linear
    correction is, entry by entry, (photons per pulse / focus area) times
    the Thomson factor times the polarization correction times the solid
    angle per pixel; and the Thomson factor is the square of
    2.817895019671143e-15, which agrees with the square of 2.8179e-15 to
    better than one part in ten thousand. *)
Theorem initialize_pixels_with_beam_linear_correction
  (d d' : DetectorBase) (beam : Beam) :
  initialize_pixels_with_beam d beam = (d', Ok tt) ->
  (exists pol sa lc,
      polarization_correction d' = Some pol
      /\ solid_angle_per_pixel d' = Some sa
      /\ linear_correction d' = Some lc
      /\ length lc = (if (length pol =? 1)%nat then length sa else length pol)
      /\ forall i, (i < length lc)%nat ->
           nth i lc 0
           = get_photons_per_pulse beam / get_focus_area beam
             * Thomson_factor * bnth i pol * bnth i sa)
  /\ Thomson_factor = (2.817895019671143 * 1e-15) ^ 2
  /\ Rabs (Thomson_factor - (2.8179 * 1e-15) ^ 2)
     <= 1e-4 * (2.8179 * 1e-15) ^ 2.
Proof.
  intros H.
  destruct (initialize_pixels_with_beam_ok d d' beam H)
    as (ppr & pdr & pol & sa & prod & Harea & _ & Hprod & ->).
  split; [|split].
  - exists pol, sa, (map (Rmult (intensity_scale beam)) prod).
    simpl. repeat split.
    + rewrite length_map. exact (broadcast2_length _ _ _ _ Hprod).
    + intros i Hi. rewrite length_map in Hi.
      rewrite <- (Rmult_0_r (intensity_scale beam)) at 1.
      rewrite map_nth.
      rewrite (np_multiply_nth pol sa prod i Hprod Hi).
      unfold intensity_scale. ring.
  - unfold Thomson_factor. lra.
  - unfold Thomson_factor, Rabs.
    destruct (Rcase_abs _); lra.
Qed.

Lemma np_multiply_same_length (a b : list R) :
  length a = length b -> np_multiply a b = Ok (zip_with Rmult a b).
Proof.
  intros H. unfold np_multiply, broadcast2.
  rewrite (proj2 (Nat.eqb_eq _ _) H). reflexivity.
Qed.

(** Two shapes broadcast against each other, and the shape of the result. *)
Definition compatible (m n : nat) : bool :=
  ((m =? n)%nat || (m =? 1)%nat || (n =? 1)%nat)%bool.

Definition stretched (m n : nat) : nat := if (m =? 1)%nat then n else m.

Lemma bnth_tabulate (h : nat -> R) (n i : nat) :
  bnth i (map h (seq 0 n))
  = if (n =? 1)%nat then h 0%nat else if (i <? n)%nat then h i else 0.
Proof.
  unfold bnth. rewrite length_map, length_seq.
  destruct (Nat.eqb_spec n 1) as [E|E].
  - apply nth_tabulate. lia.
  - destruct (Nat.ltb_spec i n) as [H|H].
    + apply nth_tabulate. exact H.
    + apply nth_overflow. rewrite length_map, length_seq. exact H.
Qed.

Lemma bnth_scale (k : R) (l : list R) (i : nat) :
  bnth i (map (Rmult k) l) = k * bnth i l.
Proof.
  unfold bnth. rewrite length_map.
  destruct (length l =? 1)%nat;
    rewrite <- (Rmult_0_r k) at 1; apply map_nth.
Qed.

(** [np.multiply], entry by entry. *)
Lemma np_multiply_tabulate (a b : list R) :
  np_multiply a b
  = if compatible (length a) (length b)
    then Ok (map (fun i => bnth i a * bnth i b)
               (seq 0 (stretched (length a) (length b))))
    else Err ValueError.
Proof.
  unfold np_multiply, broadcast2, compatible, stretched.
  destruct (Nat.eqb_spec (length a) (length b)) as [E|E].
  - cbn [orb]. f_equal.
    replace (if (length a =? 1)%nat then length b else length a)
      with (length a) by (destruct (length a =? 1)%nat; congruence).
    apply (nth_ext _ _ 0 0).
    + rewrite zip_with_length by exact E.
      rewrite length_map, length_seq. reflexivity.
    + intros n Hn. rewrite zip_with_length in Hn by exact E.
      rewrite nth_tabulate by exact Hn.
      rewrite (zip_with_nth Rmult a b 0 0 0 n E Hn).
      unfold bnth. rewrite <- E.
      destruct (Nat.eqb_spec (length a) 1) as [E1|E1]; [|reflexivity].
      replace n with 0%nat by lia. reflexivity.
  - destruct a as [|x [|x' a]]; destruct b as [|y [|y' b]];
      cbn [length] in *; try lia; try reflexivity.
    + cbn [Nat.eqb orb]. f_equal.
      transitivity
        (map (Rmult x)
           (map (fun i => nth i (y :: y' :: b) 0)
              (seq 0 (length (y :: y' :: b))))).
      * f_equal. apply tabulate_nth.
      * rewrite map_map. reflexivity.
    + cbn [Nat.eqb orb]. f_equal.
      transitivity
        (map (fun v => v * y)
           (map (fun i => nth i (x :: x' :: a) 0)
              (seq 0 (length (x :: x' :: a))))).
      * f_equal. apply tabulate_nth.
      * rewrite map_map. reflexivity.
Qed.

Ltac shape_cases :=
  repeat match goal with
         | |- context [(?a =? ?b)%nat] => destruct (Nat.eqb_spec a b)
         | |- context [(?a <? ?b)%nat] => destruct (Nat.ltb_spec a b)
         end;
  cbn [orb andb]; intros; try reflexivity; try discriminate; try lia.

(** A pattern broadcasts against the product of two arrays exactly when
    it broadcasts against the first and the result against the second. *)
Lemma compatible_steps (P S O : nat) :
  compatible O S = true ->
  compatible P (stretched O S)
  = (compatible P S && compatible (stretched P S) O)%bool.
Proof. unfold compatible, stretched. shape_cases. Qed.

Lemma stretched_steps (P S O : nat) :
  compatible O S = true ->
  compatible P S = true ->
  compatible (stretched P S) O = true ->
  stretched (stretched P S) O = stretched P (stretched O S).
Proof. unfold compatible, stretched. shape_cases. Qed.

(** C5 (as amended). After initialization, for any pattern, the
    solid-angle correction, then the polarization correction, then the
    scaling by the scalar (photons per pulse / focus area) times the
    Thomson factor give what [add_correction] gives in one step: the same
    array when the pattern broadcasts against the pixel arrays (of their
    shape or stretched), the same [ValueError] when it does not. *)
Theorem corrections_in_sequence_equal_add_correction
  (d d' : DetectorBase) (beam : Beam) (pattern : list R) :
  initialize_pixels_with_beam d beam = (d', Ok tt) ->
  (p1 <- add_solid_angle_correction d' pattern;;
   p2 <- add_polarization_correction d' p1;;
   Ok (map (fun v => v * intensity_scale beam) p2))
  = add_correction d' pattern.
Proof.
  intros H.
  destruct (initialize_pixels_with_beam_ok d d' beam H)
    as (ppr & pdr & pol & sa & prod & Harea & _ & Hprod & ->).
  unfold add_solid_angle_correction, add_polarization_correction,
    add_correction.
  cbn [set_linear_correction set_reciprocal solid_angle_per_pixel
         polarization_correction linear_correction np_multiply_attr].
  rewrite np_multiply_tabulate in Hprod.
  destruct (compatible (length pol) (length sa)) eqn:Hc; [|discriminate].
  injection Hprod as <-.
  rewrite (np_multiply_tabulate pattern (map _ _)).
  rewrite !length_map, length_seq.
  rewrite (compatible_steps _ _ _ Hc).
  rewrite (np_multiply_tabulate pattern sa).
  destruct (compatible (length pattern) (length sa)) eqn:H1;
    cbn [bind andb]; [|reflexivity].
  rewrite np_multiply_tabulate, length_map, length_seq.
  destruct (compatible (stretched (length pattern) (length sa)) (length pol))
    eqn:H2; cbn [bind]; [|reflexivity].
  f_equal. rewrite map_map.
  rewrite (stretched_steps _ _ _ Hc H1 H2).
  apply map_ext_in. intros i Hi. apply in_seq in Hi.
  rewrite bnth_scale, !bnth_tabulate.
  revert Hc H1 H2 Hi. unfold compatible, stretched, bnth.
  shape_cases; unfold intensity_scale; ring.
Qed.

(** ** Placement *)

Lemma fold_add_shift (l : list Z) (a : Z) :
  fold_left Z.add l a = (a + fold_left Z.add l 0%Z)%Z.
Proof.
  revert a. induction l as [|x l IH]; intros a; simpl.
  - lia.
  - rewrite (IH (a + x)%Z), (IH x). lia.
Qed.

Lemma total_count_cons (pc : Particle * Z) (particles : counts) :
  total_count (pc :: particles) = (snd pc + total_count particles)%Z.
Proof. unfold total_count. simpl. apply fold_add_shift. Qed.

Lemma expand_state_cons (pc : Particle * Z) (particles : counts) :
  length (expand_state (pc :: particles))
  = (Z.to_nat (snd pc) + length (expand_state particles))%nat.
Proof.
  unfold expand_state. simpl. rewrite length_app, repeat_length. reflexivity.
Qed.

(** The particle list is never shorter than the coordinate array. *)
Lemma expand_state_length_ge (particles : counts) :
  (total_count particles <= Z.of_nat (length (expand_state particles)))%Z.
Proof.
  induction particles as [|pc particles IH].
  - reflexivity.
  - rewrite total_count_cons, expand_state_cons. lia.
Qed.

(** They have the same length exactly when no count is negative. *)
Lemma expand_state_length (particles : counts) :
  Forall (fun pc => (0 <= snd pc)%Z) particles ->
  Z.of_nat (length (expand_state particles)) = total_count particles.
Proof.
  induction 1 as [|pc particles Hpc _ IH].
  - reflexivity.
  - rewrite total_count_cons, expand_state_cons. lia.
Qed.

Lemma expand_state_length_neg (particles : counts) :
  Exists (fun pc => (snd pc < 0)%Z) particles ->
  (total_count particles < Z.of_nat (length (expand_state particles)))%Z.
Proof.
  induction 1 as [pc particles Hpc|pc particles _ IH];
    rewrite total_count_cons, expand_state_cons.
  - pose proof (expand_state_length_ge particles). lia.
  - lia.
Qed.

Lemma advance_advance (a b : nat) (g : rng) :
  advance a (advance b g) = advance (b + a) g.
Proof. unfold advance. simpl. f_equal. lia. Qed.

Lemma sample_coords_S (n : nat) (bfr jr : R) (g : rng) :
  sample_coords (S n) bfr jr g
  = ((bfr * (-1 + (1 - -1) * tape g (pos g)),
      bfr * (-1 + (1 - -1) * tape g (pos g + 1)),
      jr * (-1 + (1 - -1) * tape g (pos g + 2)))
       :: fst (sample_coords n bfr jr (advance 3 g)),
     snd (sample_coords n bfr jr (advance 3 g))).
Proof.
  simpl. unfold np_random_uniform, random_sample. simpl.
  replace (advance 1 (advance 1 (advance 1 g))) with (advance 3 g)
    by (rewrite !advance_advance; reflexivity).
  replace (pos g + 1 + 1)%nat with (pos g + 2)%nat by lia.
  destruct (sample_coords n bfr jr (advance 3 g)). reflexivity.
Qed.

Lemma sample_coords_spec (n : nat) (bfr jr : R) (g : rng) :
  length (fst (sample_coords n bfr jr g)) = n
  /\ snd (sample_coords n bfr jr g) = advance (3 * n) g.
Proof.
  revert g. induction n as [|n IH]; intros g.
  - simpl. split; [reflexivity|].
    unfold advance. destruct g. simpl. f_equal. lia.
  - rewrite sample_coords_S. simpl fst. simpl snd.
    destruct (IH (advance 3 g)) as [Hl Hg]. split.
    + simpl. rewrite Hl. reflexivity.
    + rewrite Hg, advance_advance. f_equal. lia.
Qed.

Lemma distribute_negative (depth : nat) (particles : counts) (bfr jr : R)
  (g : rng) :
  (total_count particles < 0)%Z ->
  distribute (S depth) particles bfr jr g = Err ValueError.
Proof.
  intros H. simpl. rewrite (proj2 (Z.ltb_lt _ _) H). reflexivity.
Qed.

Lemma distribute_S (depth : nat) (particles : counts) (bfr jr : R) (g : rng) :
  (0 <= total_count particles)%Z ->
  distribute (S depth) particles bfr jr g
  = (let coords := fst (sample_coords (row_count particles) bfr jr g) in
     let g1 := snd (sample_coords (row_count particles) bfr jr g) in
     if existsb (fun item => eqb item true)
          (candidate_checkList particles coords)
     then
       '(_, _, g2) <- distribute depth particles bfr jr g1;;
       Ok (expand_state particles, coords, g2)
     else Ok (expand_state particles, coords, g1)).
Proof.
  intros H. simpl. rewrite (proj2 (Z.ltb_ge _ _) H).
  unfold row_count.
  destruct (sample_coords (Z.to_nat (total_count particles)) bfr jr g).
  reflexivity.
Qed.

Lemma distribute_ok_nonneg (depth : nat) (particles : counts) (bfr jr : R)
  (g : rng) (r : list Particle * list vec3 * rng) :
  distribute depth particles bfr jr g = Ok r ->
  (0 <= total_count particles)%Z.
Proof.
  destruct depth as [|depth]; [discriminate|].
  destruct (Z.ltb_spec (total_count particles) 0) as [H|H]; [|trivial].
  rewrite distribute_negative by exact H. discriminate.
Qed.

(** What [distribute] returns is always its own first candidate set. *)
Lemma distribute_first_candidate (depth : nat) (particles : counts)
  (bfr jr : R) (g g' : rng) (state : list Particle) (coords : list vec3) :
  distribute depth particles bfr jr g = Ok (state, coords, g') ->
  state = expand_state particles
  /\ coords = fst (sample_coords (row_count particles) bfr jr g).
Proof.
  intros H. pose proof (distribute_ok_nonneg _ _ _ _ _ _ H) as HN.
  revert H.
  destruct depth as [|depth]; [discriminate|].
  rewrite distribute_S by exact HN. cbv zeta.
  destruct (existsb _ _).
  - destruct (distribute depth particles bfr jr _) as [[[s c] g2]|e];
      simpl; [|discriminate].
    intros [= <- <- _]. split; reflexivity.
  - intros [= <- <- _]. split; reflexivity.
Qed.

Lemma distribute_lengths (depth : nat) (particles : counts)
  (bfr jr : R) (g g' : rng) (state : list Particle) (coords : list vec3) :
  distribute depth particles bfr jr g = Ok (state, coords, g') ->
  length coords = row_count particles
  /\ (length coords <= length state)%nat
  /\ (Forall (fun pc => (0 <= snd pc)%Z) particles ->
      length state = length coords).
Proof.
  intros H. pose proof (distribute_ok_nonneg _ _ _ _ _ _ H) as HN.
  apply distribute_first_candidate in H as [-> ->].
  rewrite (proj1 (sample_coords_spec _ _ _ _)). unfold row_count.
  pose proof (expand_state_length_ge particles) as Hge.
  split; [reflexivity|]. split; [lia|].
  intros Hpos. apply expand_state_length in Hpos. lia.
Qed.

Lemma checkList_single (collision : list (list bool)) :
  checkList 1 collision = [].
Proof. reflexivity. Qed.

Lemma uniform_unit_bounds (r u : R) :
  0 <= r -> 0 <= u < 1 -> - r <= r * (-1 + (1 - -1) * u) <= r.
Proof. intros Hr Hu. split; nra. Qed.

Lemma candidate_checkList_single (particles : counts) (coords : list vec3) :
  total_count particles = 1%Z -> candidate_checkList particles coords = [].
Proof.
  intros HN. unfold candidate_checkList, row_count. rewrite HN.
  apply checkList_single.
Qed.

Lemma distribute_single_run (depth : nat) (particles : counts)
  (bfr jr : R) (g : rng) :
  total_count particles = 1%Z ->
  distribute (S depth) particles bfr jr g
  = Ok (expand_state particles,
        [(bfr * (-1 + (1 - -1) * tape g (pos g)),
          bfr * (-1 + (1 - -1) * tape g (pos g + 1)),
          jr * (-1 + (1 - -1) * tape g (pos g + 2)))],
        advance 3 g).
Proof.
  intros HN. rewrite distribute_S by lia. cbv zeta.
  rewrite candidate_checkList_single by exact HN. simpl existsb. cbv iota.
  unfold row_count. rewrite HN.
  change (Z.to_nat 1) with 1%nat. rewrite sample_coords_S. reflexivity.
Qed.

(** C8. With one particle in all, the check list is empty whatever the
    candidate, so [distribute] returns at its first attempt (one stack
    frame is enough and exactly three samples are drawn): a single
    coordinate, with x and y in [[-beam_focus_radius, beam_focus_radius]]
    and z in [[-jet_radius, jet_radius]]. *)
Theorem distribute_single_particle (depth : nat) (particles : counts)
  (beam_focus_radius jet_radius : R) (g : rng) :
  total_count particles = 1%Z ->
  0 <= beam_focus_radius ->
  0 <= jet_radius ->
  tape_ok g ->
  (forall coords, candidate_checkList particles coords = [])
  /\ exists x y z,
      distribute (S depth) particles beam_focus_radius jet_radius g
      = Ok (expand_state particles, [(x, y, z)], advance 3 g)
      /\ - beam_focus_radius <= x <= beam_focus_radius
      /\ - beam_focus_radius <= y <= beam_focus_radius
      /\ - jet_radius <= z <= jet_radius.
Proof.
  intros HN Hb Hj Hg.
  split; [intros coords; apply candidate_checkList_single; exact HN|].
  exists (beam_focus_radius * (-1 + (1 - -1) * tape g (pos g))),
    (beam_focus_radius * (-1 + (1 - -1) * tape g (pos g + 1))),
    (jet_radius * (-1 + (1 - -1) * tape g (pos g + 2))).
  split; [apply distribute_single_run; exact HN|].
  repeat split; apply uniform_unit_bounds; auto; apply Hg.
Qed.

(** ** Coherent synthesis *)

Lemma zero_counts (particles : counts) :
  Forall (fun pc => snd pc = 0%Z) particles ->
  total_count particles = 0%Z /\ expand_state particles = [].
Proof.
  induction 1 as [|pc particles Hpc _ [IHn IHs]].
  - split; reflexivity.
  - rewrite total_count_cons, Hpc, IHn. split; [reflexivity|].
    unfold expand_state in *. simpl. rewrite Hpc, IHs. reflexivity.
Qed.

(** C9. With no particle to place (an empty mapping, or every count zero)
    [get_fxs_photons] returns no image: the accumulator is still [None]
    after the loop, and the call ends in a [TypeError]. *)
Theorem get_fxs_photons_no_particle (depth : nat) (d : DetectorBase)
  (particles : counts) (beam_focus_radius jet_radius : R) (g : rng) :
  Forall (fun pc => snd pc = 0%Z) particles ->
  fxs_loop d (expand_state particles) [] (seq 0 (length (expand_state particles))) None
  = Ok None
  /\ get_fxs_photons (S depth) d particles beam_focus_radius jet_radius g
     = Err TypeError.
Proof.
  intros H. destruct (zero_counts particles H) as [HN Hs].
  split.
  - rewrite Hs. reflexivity.
  - unfold get_fxs_photons. rewrite distribute_S by lia.
    unfold candidate_checkList, row_count. cbv zeta.
    rewrite HN, Hs. reflexivity.
Qed.

Lemma Cmul_imaginary_real (a b : R) :
  Cmul (mkC 0 a) (RtoC b) = mkC 0 (a * b).
Proof. unfold Cmul, RtoC. simpl. f_equal; ring. Qed.

Lemma Cexp_imaginary (t : R) : Cexp (mkC 0 t) = mkC (cos t) (sin t).
Proof. unfold Cexp. simpl. rewrite exp_0. f_equal; ring. Qed.

Lemma phase_array_phase_factor (q : list vec3) (coord : vec3) :
  phase_array q coord = map (fun qv => phase_factor qv coord) q.
Proof.
  unfold phase_array. apply map_ext. intros qv.
  unfold Ci. rewrite !Cmul_imaginary_real, Cexp_imaginary.
  unfold phase_factor.
  replace (1 * 2 * PI * 1e-10 * dot3 qv coord)
    with (2 * PI * 1e-10 * dot3 qv coord) by ring.
  reflexivity.
Qed.

Lemma square_abs_squared_magnitude (a : list complex) :
  square_abs a = map squared_magnitude a.
Proof.
  unfold square_abs. apply map_ext. intros z.
  unfold Cabs, squared_magnitude.
  apply sqrt_sqrt. nra.
Qed.

Lemma index_app_middle {A : Type} (pre : list A) (x : A) (post : list A) :
  index (pre ++ x :: post) (length pre) = Ok x.
Proof.
  unfold index. rewrite nth_error_app2 by lia.
  rewrite Nat.sub_diag. reflexivity.
Qed.

Lemma fxs_loop_fold_from (d : DetectorBase) (s : list Particle) :
  forall (c : list vec3) (ps : list Particle) (pc : list vec3)
         (raw_data : option (list complex)),
    length ps = length pc ->
    length s = length c ->
    fxs_loop d (ps ++ s) (pc ++ c) (seq (length ps) (length s)) raw_data
    = fxs_fold d (combine s c) raw_data.
Proof.
  induction s as [|x s IH]; intros [|y c] ps pc raw_data Hp Hs;
    simpl in Hs; try discriminate; [reflexivity|].
  assert (Hnext : forall acc,
             fxs_loop d (ps ++ x :: s) (pc ++ y :: c)
               (seq (S (length ps)) (length s)) acc
             = fxs_fold d (combine s c) acc).
  { intros acc.
    replace (ps ++ x :: s) with ((ps ++ [x]) ++ s)
      by (rewrite <- app_assoc; reflexivity).
    replace (pc ++ y :: c) with ((pc ++ [y]) ++ c)
      by (rewrite <- app_assoc; reflexivity).
    replace (S (length ps)) with (length (ps ++ [x]))
      by (rewrite length_app; simpl; lia).
    apply IH; [rewrite !length_app; simpl; lia | lia]. }
  cbn [length seq fxs_loop combine fxs_fold fst snd].
  rewrite index_app_middle. cbn [bind].
  unfold shifted_field.
  destruct (get_pattern_without_corrections d x rt_complex_field)
    as [field|e]; [|reflexivity].
  cbn [bind]. rewrite Hp, index_app_middle. cbn [bind].
  destruct (np_dot_attr (pixel_position_reciprocal d)) as [q|e];
    [|reflexivity].
  cbn [bind]. rewrite phase_array_phase_factor.
  destruct (broadcast_inplace Cmul field _) as [this_data|e]; [|reflexivity].
  cbn [bind].
  destruct raw_data as [acc|].
  - destruct (broadcast_inplace Cadd acc this_data) as [acc'|e];
      [|reflexivity].
    cbn [bind]. rewrite <- Hp. apply Hnext.
  - rewrite <- Hp. apply Hnext.
Qed.

Lemma fxs_loop_fold (d : DetectorBase) (state : list Particle)
  (coords : list vec3) (raw_data : option (list complex)) :
  length state = length coords ->
  fxs_loop d state coords (seq 0 (length state)) raw_data
  = fxs_fold d (combine state coords) raw_data.
Proof.
  intros H. exact (fxs_loop_fold_from d state coords [] [] raw_data eq_refl H).
Qed.

Lemma Rsum_shift (l : list R) (a : R) : fold_left Rplus l a = a + Rsum l.
Proof.
  unfold Rsum. revert a. induction l as [|x l IH]; intros a; simpl.
  - lra.
  - rewrite (IH (a + x)), (IH (0 + x)). lra.
Qed.

Lemma Rsum_cons (x : R) (l : list R) : Rsum (x :: l) = x + Rsum l.
Proof. unfold Rsum at 1. simpl. rewrite Rsum_shift. lra. Qed.

Lemma nth_map_in {A B : Type} (h : A -> B) (l : list A) (k : nat)
  (da : A) (db : B) :
  (k < length l)%nat -> nth k (map h l) db = h (nth k l da).
Proof.
  intros H.
  rewrite (nth_indep _ db (h da)) by (rewrite length_map; exact H).
  apply map_nth.
Qed.

Lemma zip_with_tabulate {A B : Type} (f : A -> B -> A) (a : list A)
  (b : list B) (da : A) (db : B) :
  length a = length b ->
  zip_with f a b
  = map (fun k => f (nth k a da) (nth k b db)) (seq 0 (length a)).
Proof.
  intros H. apply (nth_ext _ _ da da).
  - rewrite zip_with_length by exact H.
    rewrite length_map, length_seq. reflexivity.
  - intros n Hn. rewrite zip_with_length in Hn by exact H.
    rewrite nth_tabulate by exact Hn.
    apply zip_with_nth; assumption.
Qed.

(** An in-place ufunc, entry by entry. *)
Lemma broadcast_inplace_ok {A B : Type} (f : A -> B -> A) (a : list A)
  (b : list B) (da : A) (db : B) :
  length b = length a \/ length b = 1%nat ->
  broadcast_inplace f a b
  = Ok (map (fun k => f (nth k a da) (entry db b k)) (seq 0 (length a))).
Proof.
  intros H. unfold broadcast_inplace.
  destruct (length a =? length b)%nat eqn:E.
  - apply Nat.eqb_eq in E. f_equal.
    rewrite (zip_with_tabulate f a b da db E).
    apply map_ext_in. intros k Hk. apply in_seq in Hk. unfold entry.
    destruct (length b =? 1)%nat eqn:E1; [|reflexivity].
    apply Nat.eqb_eq in E1. replace k with 0%nat by lia. reflexivity.
  - apply Nat.eqb_neq in E. destruct H as [H|H]; [congruence|].
    destruct b as [|y [|y' b]]; try discriminate.
    f_equal. unfold entry. cbn [length Nat.eqb nth].
    transitivity (map (fun x => f x y)
                    (map (fun k => nth k a da) (seq 0 (length a)))).
    + f_equal. apply tabulate_nth.
    + apply map_map.
Qed.

Lemma broadcast_inplace_bad {A B : Type} (f : A -> B -> A) (a : list A)
  (b : list B) :
  length b <> length a -> length b <> 1%nat ->
  broadcast_inplace f a b = Err ValueError.
Proof.
  intros H H1. unfold broadcast_inplace.
  destruct (length a =? length b)%nat eqn:E.
  - apply Nat.eqb_eq in E. congruence.
  - destruct b as [|y [|y' b]]; try reflexivity. simpl in H1. congruence.
Qed.

(** The loop only completes when every index it visits has a row. *)
Lemma fxs_loop_indices (d : DetectorBase) (state : list Particle)
  (coords : list vec3) :
  forall (indices : list nat) (raw_data r : option (list complex)),
    fxs_loop d state coords indices raw_data = Ok r ->
    Forall (fun i => (i < length coords)%nat) indices.
Proof.
  induction indices as [|i rest IH]; intros raw_data r H; [constructor|].
  cbn [fxs_loop] in H.
  destruct (index state i) as [particle|e]; [|discriminate].
  cbn [bind] in H.
  destruct (get_pattern_without_corrections d particle rt_complex_field)
    as [f|e]; [|discriminate].
  cbn [bind] in H.
  destruct (index coords i) as [c|e] eqn:Ec; [|discriminate].
  cbn [bind] in H.
  assert (Hi : (i < length coords)%nat).
  { apply nth_error_Some. unfold index in Ec.
    destruct (nth_error coords i); [discriminate | discriminate]. }
  destruct (np_dot_attr (pixel_position_reciprocal d)) as [q|e];
    [|discriminate].
  cbn [bind] in H.
  destruct (broadcast_inplace Cmul f (phase_array q c)) as [this_data|e];
    [|discriminate].
  cbn [bind] in H.
  constructor; [exact Hi|].
  destruct raw_data as [acc|].
  - destruct (broadcast_inplace Cadd acc this_data) as [acc'|e];
      [|discriminate].
    exact (IH _ _ H).
  - exact (IH _ _ H).
Qed.

Lemma fxs_loop_needs_rows (d : DetectorBase) (state : list Particle)
  (coords : list vec3) (r : option (list complex)) :
  (length coords <= length state)%nat ->
  fxs_loop d state coords (seq 0 (length state)) None = Ok r ->
  length state = length coords.
Proof.
  intros Hle H. apply fxs_loop_indices in H.
  destruct (Nat.eq_dec (length state) (length coords)) as [E|E]; [exact E|].
  rewrite Forall_forall in H.
  assert (Hin : In (length coords) (seq 0 (length state)))
    by (apply in_seq; lia).
  apply H in Hin. lia.
Qed.

(** A failure of the kernel for any particle fails the loop. *)
Lemma fxs_fold_kernel_err (d : DetectorBase)
  (placed : list (Particle * vec3)) (e : pyerr) :
  sequence
    (map (fun pc => get_pattern_without_corrections d (fst pc) rt_complex_field)
       placed) = Err e ->
  forall raw_data, exists e', fxs_fold d placed raw_data = Err e'.
Proof.
  induction placed as [|pc placed IH]; cbn [map sequence]; [discriminate|].
  intros H raw_data. cbn [fxs_fold]. unfold shifted_field.
  destruct (get_pattern_without_corrections d (fst pc) rt_complex_field)
    as [f|e0]; cbn [bind] in *.
  2:{ exists e0. reflexivity. }
  destruct (sequence _) as [fs|e1]; [discriminate|].
  specialize (IH H).
  destruct (np_dot_attr (pixel_position_reciprocal d)) as [q|e2];
    [|exists e2; reflexivity].
  cbn [bind].
  destruct (broadcast_inplace Cmul f _) as [this_data|e3];
    [|exists e3; reflexivity].
  cbn [bind].
  destruct raw_data as [acc|]; [|apply IH].
  destruct (broadcast_inplace Cadd acc this_data) as [acc'|e4];
    [|exists e4; reflexivity].
  cbn [bind]. apply IH.
Qed.

Lemma shifted_field_tabulate (d : DetectorBase) (p : Particle)
  (f : list complex) (q : list vec3) (coord : vec3) :
  get_pattern_without_corrections d p rt_complex_field = Ok f ->
  pixel_position_reciprocal d = Some q ->
  shifted_field d p coord
  = if ((length f =? length q)%nat || (length q =? 1)%nat)%bool
    then
      Ok (map
            (fun k =>
               Cmul (nth k f (mkC 0 0))
                 (phase_factor (entry origin q k) coord))
            (seq 0 (length f)))
    else Err ValueError.
Proof.
  intros Hk Hq. unfold shifted_field. rewrite Hk, Hq.
  cbn [bind np_dot_attr].
  destruct ((length f =? length q)%nat || (length q =? 1)%nat)%bool eqn:E.
  - apply orb_true_iff in E.
    rewrite (broadcast_inplace_ok Cmul f _ (mkC 0 0) (mkC 0 0)).
    2:{ rewrite length_map.
        destruct E as [E|E]; apply Nat.eqb_eq in E; lia. }
    f_equal. apply map_ext_in. intros k Hin. apply in_seq in Hin.
    f_equal. unfold entry. rewrite length_map.
    destruct (length q =? 1)%nat eqn:E1.
    + apply Nat.eqb_eq in E1.
      apply (nth_map_in (fun qv => phase_factor qv coord)). lia.
    + destruct E as [E|E]; [|discriminate].
      apply Nat.eqb_eq in E.
      apply (nth_map_in (fun qv => phase_factor qv coord)). lia.
  - apply orb_false_iff in E. destruct E as [E E1].
    apply Nat.eqb_neq in E, E1.
    apply broadcast_inplace_bad; rewrite length_map; congruence.
Qed.

Lemma shapes_agree_cons (Q L : nat) (f : list complex)
  (fs : list (list complex)) :
  shapes_agree Q L (f :: fs)
  = (((length f =? Q)%nat || (Q =? 1)%nat)
     && ((length f =? L)%nat || (length f =? 1)%nat)
     && shapes_agree Q L fs)%bool.
Proof. reflexivity. Qed.

Lemma amplitude_re_cons (q : list vec3) (f : list complex) (c : vec3)
  (rest : list (list complex * vec3)) (k : nat) :
  amplitude_re q ((f, c) :: rest) k
  = re (entry (mkC 0 0) f k) * cos (phase_angle q c k)
    - im (entry (mkC 0 0) f k) * sin (phase_angle q c k)
    + amplitude_re q rest k.
Proof. unfold amplitude_re. cbn [map fst snd]. apply Rsum_cons. Qed.

Lemma amplitude_im_cons (q : list vec3) (f : list complex) (c : vec3)
  (rest : list (list complex * vec3)) (k : nat) :
  amplitude_im q ((f, c) :: rest) k
  = re (entry (mkC 0 0) f k) * sin (phase_angle q c k)
    + im (entry (mkC 0 0) f k) * cos (phase_angle q c k)
    + amplitude_im q rest k.
Proof. unfold amplitude_im. cbn [map fst snd]. apply Rsum_cons. Qed.

(** The entry that [raw_data += this_data] reads on pixel [k]. *)
Lemma entry_shifted (f : list complex) (q : list vec3) (coord : vec3)
  (L k : nat) :
  ((length f =? length q)%nat || (length q =? 1)%nat)%bool = true ->
  ((length f =? L)%nat || (length f =? 1)%nat)%bool = true ->
  (k < L)%nat ->
  entry (mkC 0 0)
    (map
       (fun k =>
          Cmul (nth k f (mkC 0 0)) (phase_factor (entry origin q k) coord))
       (seq 0 (length f))) k
  = Cmul (entry (mkC 0 0) f k) (phase_factor (entry origin q k) coord).
Proof.
  intros H1 H2 Hk. unfold entry. rewrite length_map, length_seq.
  destruct (length f =? 1)%nat eqn:E.
  - apply Nat.eqb_eq in E. rewrite nth_tabulate by lia.
    destruct (length q =? 1)%nat eqn:Eq; [reflexivity|].
    rewrite orb_false_r in H1. apply Nat.eqb_eq in H1.
    apply Nat.eqb_neq in Eq. lia.
  - rewrite orb_false_r in H2. apply Nat.eqb_eq in H2.
    rewrite nth_tabulate by lia. reflexivity.
Qed.

(** The loop from an accumulator on: pixel by pixel, the accumulator plus
    the sum of the shifted fields left. *)
Lemma fxs_fold_some_sum (d : DetectorBase) (q : list vec3) :
  pixel_position_reciprocal d = Some q ->
  forall (placed : list (Particle * vec3)) (fields : list (list complex))
         (acc : list complex),
    sequence
      (map
         (fun pc => get_pattern_without_corrections d (fst pc) rt_complex_field)
         placed) = Ok fields ->
    fxs_fold d placed (Some acc)
    = if shapes_agree (length q) (length acc) fields
      then
        Ok (Some
              (map
                 (fun k =>
                    mkC
                      (re (nth k acc (mkC 0 0))
                       + amplitude_re q (combine fields (map snd placed)) k)
                      (im (nth k acc (mkC 0 0))
                       + amplitude_im q (combine fields (map snd placed)) k))
                 (seq 0 (length acc))))
      else Err ValueError.
Proof.
  intros Hq.
  induction placed as [|[p c] placed IH]; intros fields acc Hseq.
  - cbn [map sequence] in Hseq. injection Hseq as <-.
    cbn [fxs_fold shapes_agree forallb]. do 2 f_equal.
    transitivity (map (fun k => nth k acc (mkC 0 0)) (seq 0 (length acc)));
      [apply tabulate_nth|].
    apply map_ext. intros k.
    unfold amplitude_re, amplitude_im, Rsum. cbn [combine map fold_left].
    destruct (nth k acc (mkC 0 0)) as [a b]. cbn [re im]. f_equal; lra.
  - cbn [map sequence fst snd] in Hseq.
    destruct (get_pattern_without_corrections d p rt_complex_field)
      as [f|e] eqn:Hk; [|discriminate].
    cbn [bind] in Hseq.
    destruct (sequence _) as [fs|e] eqn:Hs; [|discriminate].
    cbn [bind] in Hseq. injection Hseq as <-.
    cbn [fxs_fold fst snd].
    rewrite (shifted_field_tabulate d p f q c Hk Hq), shapes_agree_cons.
    destruct ((length f =? length q)%nat || (length q =? 1)%nat)%bool eqn:E1;
      cbn [andb bind]; [|reflexivity].
    destruct ((length f =? length acc)%nat || (length f =? 1)%nat)%bool eqn:E2;
      cbn [andb].
    + rewrite (broadcast_inplace_ok Cadd acc _ (mkC 0 0) (mkC 0 0)).
      2:{ rewrite length_map, length_seq. apply orb_true_iff in E2.
          destruct E2 as [E2|E2]; apply Nat.eqb_eq in E2; lia. }
      cbn [bind]. rewrite (IH fs _ eq_refl).
      rewrite length_map, length_seq.
      destruct (shapes_agree (length q) (length acc) fs); [|reflexivity].
      do 2 f_equal. apply map_ext_in. intros k Hin. apply in_seq in Hin.
      rewrite nth_tabulate by lia.
      cbn [combine map snd].
      rewrite amplitude_re_cons, amplitude_im_cons.
      rewrite (entry_shifted f q c (length acc) k E1 E2) by lia.
      unfold Cadd, Cmul, phase_factor, phase_angle. cbn [re im].
      f_equal; ring.
    + apply orb_false_iff in E2. destruct E2 as [E2 E3].
      apply Nat.eqb_neq in E2, E3.
      rewrite broadcast_inplace_bad;
        [reflexivity | rewrite length_map, length_seq; congruence ..].
Qed.

(** The whole loop: pixel by pixel, the sum of the shifted fields. *)
Lemma fxs_fold_none_sum (d : DetectorBase) (q : list vec3) (p : Particle)
  (c : vec3) (placed : list (Particle * vec3)) (f0 : list complex)
  (fs : list (list complex)) :
  pixel_position_reciprocal d = Some q ->
  sequence
    (map
       (fun pc => get_pattern_without_corrections d (fst pc) rt_complex_field)
       ((p, c) :: placed)) = Ok (f0 :: fs) ->
  fxs_fold d ((p, c) :: placed) None
  = if shapes_agree (length q) (length f0) (f0 :: fs)
    then
      Ok (Some
            (map
               (fun k =>
                  mkC
                    (amplitude_re q
                       (combine (f0 :: fs) (map snd ((p, c) :: placed))) k)
                    (amplitude_im q
                       (combine (f0 :: fs) (map snd ((p, c) :: placed))) k))
               (seq 0 (length f0))))
    else Err ValueError.
Proof.
  intros Hq Hseq.
  cbn [map sequence fst snd] in Hseq.
  destruct (get_pattern_without_corrections d p rt_complex_field)
    as [f|e] eqn:Hk; [|discriminate].
  cbn [bind] in Hseq.
  destruct (sequence _) as [fs'|e] eqn:Hs; [|discriminate].
  cbn [bind] in Hseq. injection Hseq as <- <-.
  cbn [fxs_fold fst snd].
  rewrite (shifted_field_tabulate d p f q c Hk Hq), shapes_agree_cons.
  destruct ((length f =? length q)%nat || (length q =? 1)%nat)%bool eqn:E1;
    cbn [andb bind]; [|reflexivity].
  rewrite (fxs_fold_some_sum d q Hq placed fs' _ Hs).
  rewrite length_map, length_seq, Nat.eqb_refl. cbn [orb andb].
  destruct (shapes_agree (length q) (length f) fs'); [|reflexivity].
  do 2 f_equal. apply map_ext_in. intros k Hin. apply in_seq in Hin.
  rewrite nth_tabulate by lia.
  cbn [combine map snd].
  rewrite amplitude_re_cons, amplitude_im_cons.
  assert (Hent : entry (mkC 0 0) f k = nth k f (mkC 0 0)).
  { unfold entry. destruct (length f =? 1)%nat eqn:E; [|reflexivity].
    apply Nat.eqb_eq in E. replace k with 0%nat by lia. reflexivity. }
  rewrite Hent.
  unfold Cmul, phase_factor, phase_angle. cbn [re im].
  f_equal; ring.
Qed.

Lemma square_abs_amplitude (q : list vec3)
  (placed : list (list complex * vec3)) (L : nat) :
  square_abs
    (map (fun k => mkC (amplitude_re q placed k) (amplitude_im q placed k))
       (seq 0 L))
  = map (pixel_intensity q placed) (seq 0 L).
Proof. rewrite square_abs_squared_magnitude, map_map. reflexivity. Qed.

(** C3. For every particle-counts mapping, [get_fxs_photons] returns an
    image exactly when the computation of the specification does, and
    then the same image and generator state: the particles are placed by
    [distribute], every particle having its row; on each pixel, the
    complex fields of the particles, each multiplied by
    exp(i * 2 pi * 1e-10 * (reciprocal pixel position . coordinate)), are
    added ([amplitude_re] and [amplitude_im] are the two parts of that
    sum, written out in real arithmetic); the squared magnitude of the sum
    is passed to [add_correction_and_quantization]. *)
Theorem get_fxs_photons_coherent_sum (depth : nat) (d : DetectorBase)
  (particles : counts) (beam_focus_radius jet_radius : R) (g : rng)
  (out : list Z * rng) :
  get_fxs_photons depth d particles beam_focus_radius jet_radius g = Ok out
  <-> fxs_reference depth d particles beam_focus_radius jet_radius g = Ok out.
Proof.
  unfold get_fxs_photons, fxs_reference.
  destruct (distribute depth particles beam_focus_radius jet_radius g)
    as [[[state coords] g1]|e] eqn:Hd; cbn [bind]; [|tauto].
  destruct (distribute_lengths _ _ _ _ _ _ _ _ Hd) as (_ & Hle & _).
  unfold pair_up.
  destruct (length state =? length coords)%nat eqn:El; cbn [bind].
  2:{ apply Nat.eqb_neq in El. split; [|discriminate].
      destruct (fxs_loop d state coords (seq 0 (length state)) None)
        as [r|e] eqn:Hl; [|discriminate].
      apply fxs_loop_needs_rows in Hl; [contradiction | exact Hle]. }
  apply Nat.eqb_eq in El.
  rewrite (fxs_loop_fold d state coords None El).
  generalize (combine state coords). intros placed.
  destruct (sequence _) as [fields|e] eqn:Hseq; cbn [bind].
  2:{ destruct (fxs_fold_kernel_err d placed e Hseq None) as [e' ->].
      cbn [bind]. split; discriminate. }
  destruct placed as [|[p c] placed].
  { cbn [map sequence] in Hseq. injection Hseq as <-.
    cbn [fxs_fold bind]. tauto. }
  destruct fields as [|f0 fs].
  { cbn [map sequence] in Hseq.
    destruct (get_pattern_without_corrections d _ rt_complex_field);
      [|discriminate].
    cbn [bind] in Hseq. destruct (sequence _); discriminate. }
  destruct (pixel_position_reciprocal d) as [q|] eqn:Hq.
  - rewrite (fxs_fold_none_sum d q p c placed f0 fs Hq Hseq).
    cbn [np_dot_attr bind].
    change (field_of rt_complex_field) with (list complex) in *.
    destruct (shapes_agree (length q) (length f0) (f0 :: fs)); cbn [bind];
      [|tauto].
    rewrite square_abs_amplitude. tauto.
  - cbn [np_dot_attr bind fxs_fold]. unfold shifted_field.
    cbn [map sequence fst snd] in *.
    destruct (get_pattern_without_corrections d p rt_complex_field);
      [|discriminate].
    rewrite Hq. cbn [np_dot_attr bind]. split; discriminate.
Qed.

(** ** Static noise *)


(** ** Reciprocal mesh sizing *)

Lemma np_min_positive_axis (a axis : pynum) :
  0 < pynum_val axis ->
  exists e, np_min a axis = Err e /\ (e = TypeError \/ e = AxisError).
Proof.
  intros H. destruct axis as [k|h]; simpl in *.
  - apply lt_IZR in H.
    replace (Z.eqb k 0) with false by (symmetry; apply Z.eqb_neq; lia).
    replace (Z.eqb k (-1)) with false by (symmetry; apply Z.eqb_neq; lia).
    simpl. exists AxisError. auto.
  - exists TypeError. auto.
Qed.

(** C6 (the code at the inputs of the claim). Whenever the pixel height is
    positive, [preferred_voxel_length] raises: [np.min] takes the pixel
    height for an axis, which is a [TypeError] for a float and an
    [AxisError] for a positive integer. *)
Theorem preferred_voxel_length_raises (d : DetectorBase)
  (wave_vector : list R) :
  0 < pynum_val (pixel_height d) ->
  exists e,
    preferred_voxel_length d wave_vector = Err e
    /\ (e = TypeError \/ e = AxisError).
Proof.
  intros H. unfold preferred_voxel_length.
  destruct (np_min_positive_axis (pixel_width d) (pixel_height d) H)
    as (e & -> & He).
  exists e. split; [reflexivity | exact He].
Qed.

(** C7 (the code at the inputs of the claim). Whenever the pixel height is
    positive, [preferred_reciprocal_mesh_number] raises, since it starts
    with [preferred_voxel_length]: no mesh number is returned. *)
Theorem preferred_reciprocal_mesh_number_raises (d : DetectorBase)
  (wave_vector : list R) :
  0 < pynum_val (pixel_height d) ->
  exists e,
    preferred_reciprocal_mesh_number d wave_vector = Err e
    /\ (e = TypeError \/ e = AxisError).
Proof.
  intros H. unfold preferred_reciprocal_mesh_number, preferred_voxel_length.
  destruct (np_min_positive_axis (pixel_width d) (pixel_height d) H)
    as (e & -> & He).
  exists e. split; [reflexivity | exact He].
Qed.

Lemma preferred_reciprocal_mesh_number_value (d : DetectorBase)
  (wave_vector : list R) (n : Z) :
  preferred_reciprocal_mesh_number d wave_vector = Ok n ->
  exists voxel_length range,
    preferred_voxel_length d wave_vector = Ok voxel_length
    /\ np_max_attr (pixel_distance_reciprocal d) = Ok range
    /\ n = (2 * (Int_part (range / voxel_length) + 1) + 1)%Z
    /\ Z.odd n = true.
Proof.
  unfold preferred_reciprocal_mesh_number.
  destruct (preferred_voxel_length d wave_vector) as [vl|e]; [|discriminate].
  destruct (np_max_attr (pixel_distance_reciprocal d)) as [range|e];
    [|discriminate].
  cbn [bind]. unfold np_floor_divide.
  destruct (Req_dec_T vl 0); [discriminate|]. cbn [bind].
  intros [= <-]. exists vl, range. repeat split.
  change (Z.odd (2 * (Int_part (range / vl) + 1) + 1) = true).
  rewrite Z.odd_add, Z.odd_mul. reflexivity.
Qed.

(** ** Further properties of the placement *)

Lemma radius_step_max (radius_current radius : R) :
  (if Rltb radius_current radius then radius else radius_current)
  = Rmax radius_current radius.
Proof.
  unfold Rltb, Rmax.
  destruct (Rlt_dec radius_current radius), (Rle_dec radius_current radius);
    lra.
Qed.

Lemma radius_fold_ge (rows : list vec3) (rc : R) :
  rc <= fold_left
          (fun radius_current row =>
             if Rltb radius_current (norm3 row) then norm3 row
             else radius_current)
          rows rc.
Proof.
  revert rc. induction rows as [|row rows IH]; intros rc; simpl.
  - lra.
  - eapply Rle_trans; [|apply IH].
    rewrite radius_step_max. apply Rmax_l.
Qed.

Lemma radius_fold_bound (rows : list vec3) (rc : R) (row : vec3) :
  In row rows ->
  norm3 row <= fold_left
                 (fun radius_current row =>
                    if Rltb radius_current (norm3 row) then norm3 row
                    else radius_current)
                 rows rc.
Proof.
  revert rc. induction rows as [|r rows IH]; intros rc Hin;
    [contradiction|].
  destruct Hin as [->|Hin]; simpl.
  - eapply Rle_trans; [|apply radius_fold_ge].
    rewrite radius_step_max. apply Rmax_r.
  - apply IH. exact Hin.
Qed.

Lemma radius_fold_attained (rows : list vec3) (rc : R) :
  fold_left
    (fun radius_current row =>
       if Rltb radius_current (norm3 row) then norm3 row else radius_current)
    rows rc = rc
  \/ exists row, In row rows
       /\ fold_left
            (fun radius_current row =>
               if Rltb radius_current (norm3 row) then norm3 row
               else radius_current)
            rows rc = norm3 row.
Proof.
  revert rc. induction rows as [|r rows IH]; intros rc; simpl.
  - left. reflexivity.
  - destruct (IH (if Rltb rc (norm3 r) then norm3 r else rc))
      as [H|(row & Hin & H)].
    + rewrite H. destruct (Rltb rc (norm3 r)).
      * right. exists r. split; [left; reflexivity | reflexivity].
      * left. reflexivity.
    + right. exists row. split; [right; exact Hin | exact H].
Qed.

(** The radius of one species: its atoms, recentred on their mean. *)
Definition radius_arr (particle : Particle) : list vec3 :=
  map (fun a => vsub a (mean_axis0 (atom_pos particle))) (atom_pos particle).

Lemma maxRadius_fold (particles : counts) (rc : R) :
  fold_left
    (fun radius_current pc =>
       let centre := mean_axis0 (atom_pos (fst pc)) in
       let radius_arr := map (fun a => vsub a centre) (atom_pos (fst pc)) in
       fold_left
         (fun radius_current row =>
            let radius := norm3 row in
            if Rltb radius_current radius then radius else radius_current)
         radius_arr radius_current)
    particles rc
  = fold_left
      (fun radius_current pc =>
         fold_left
           (fun radius_current row =>
              if Rltb radius_current (norm3 row) then norm3 row
              else radius_current)
           (radius_arr (fst pc)) radius_current)
      particles rc.
Proof. reflexivity. Qed.

Lemma species_fold_ge (particles : counts) (rc : R) :
  rc <= fold_left
          (fun radius_current pc =>
             fold_left
               (fun radius_current row =>
                  if Rltb radius_current (norm3 row) then norm3 row
                  else radius_current)
               (radius_arr (fst pc)) radius_current)
          particles rc.
Proof.
  revert rc. induction particles as [|pc particles IH]; intros rc; simpl.
  - lra.
  - eapply Rle_trans; [apply radius_fold_ge | apply IH].
Qed.

Lemma species_fold_bound (particles : counts) (rc : R)
  (pc : Particle * Z) (row : vec3) :
  In pc particles -> In row (radius_arr (fst pc)) ->
  norm3 row <= fold_left
                 (fun radius_current pc =>
                    fold_left
                      (fun radius_current row =>
                         if Rltb radius_current (norm3 row) then norm3 row
                         else radius_current)
                      (radius_arr (fst pc)) radius_current)
                 particles rc.
Proof.
  revert rc. induction particles as [|pc' particles IH];
    intros rc Hin Hrow; [contradiction|].
  destruct Hin as [->|Hin]; simpl.
  - eapply Rle_trans; [|apply species_fold_ge].
    apply radius_fold_bound. exact Hrow.
  - apply IH; assumption.
Qed.

Lemma species_fold_attained (particles : counts) (rc : R) :
  fold_left
    (fun radius_current pc =>
       fold_left
         (fun radius_current row =>
            if Rltb radius_current (norm3 row) then norm3 row
            else radius_current)
         (radius_arr (fst pc)) radius_current)
    particles rc = rc
  \/ exists pc row, In pc particles /\ In row (radius_arr (fst pc))
       /\ fold_left
            (fun radius_current pc =>
               fold_left
                 (fun radius_current row =>
                    if Rltb radius_current (norm3 row) then norm3 row
                    else radius_current)
                 (radius_arr (fst pc)) radius_current)
            particles rc = norm3 row.
Proof.
  revert rc. induction particles as [|pc particles IH]; intros rc; simpl.
  - left. reflexivity.
  - match goal with
    | |- context [fold_left _ particles ?x] =>
        destruct (IH x) as [H|(pc' & row & Hin & Hrow & H)]
    end.
    + rewrite H.
      destruct (radius_fold_attained (radius_arr (fst pc)) rc)
        as [H'|(row & Hrow & H')].
      * left. exact H'.
      * right. exists pc, row.
        split; [left; reflexivity | split; [exact Hrow | exact H']].
    + right. exists pc', row.
      split; [right; exact Hin | split; [exact Hrow | exact H]].
Qed.

(** X1. [maxRadius] is the largest distance of an atom to the mean
    position of its own species, over every species of the mapping
    whatever its count (a species with count zero is measured too), and
    zero when the mapping has no atom: it is not negative, every atom is
    within it, and it is zero or the distance of some atom. *)
Theorem maxRadius_is_maximum (particles : counts) :
  0 <= maxRadius particles
  /\ (forall p c a,
        In (p, c) particles -> In a (atom_pos p) ->
        norm3 (vsub a (mean_axis0 (atom_pos p))) <= maxRadius particles)
  /\ (maxRadius particles = 0
      \/ exists p c a,
          In (p, c) particles /\ In a (atom_pos p)
          /\ maxRadius particles
             = norm3 (vsub a (mean_axis0 (atom_pos p)))).
Proof.
  unfold maxRadius. rewrite maxRadius_fold.
  split; [apply species_fold_ge|]. split.
  - intros p c a Hin Ha.
    apply (species_fold_bound particles 0 (p, c)); [exact Hin|].
    unfold radius_arr. simpl.
    apply (in_map (fun a => vsub a (mean_axis0 (atom_pos p)))). exact Ha.
  - destruct (species_fold_attained particles 0)
      as [H|([p c] & row & Hin & Hrow & H)].
    + left. exact H.
    + right. unfold radius_arr in Hrow. simpl in Hrow.
      apply in_map_iff in Hrow as (a & <- & Ha).
      exists p, c, a. repeat split; assumption.
Qed.

(** The confinement box of [distribute]. *)
Definition in_box (beam_focus_radius jet_radius : R) (c : vec3) : Prop :=
  let '(x, y, z) := c in
  - beam_focus_radius <= x <= beam_focus_radius
  /\ - beam_focus_radius <= y <= beam_focus_radius
  /\ - jet_radius <= z <= jet_radius.

(** The first candidate set has no colliding pair. *)
Definition first_candidate_clear (particles : counts)
  (beam_focus_radius jet_radius : R) (g : rng) : Prop :=
  existsb (fun item => eqb item true)
    (candidate_checkList particles
       (fst (sample_coords (row_count particles)
               beam_focus_radius jet_radius g)))
  = false.

Lemma tape_ok_advance (k : nat) (g : rng) : tape_ok g -> tape_ok (advance k g).
Proof. intros H n. exact (H n). Qed.

Lemma sample_coords_in_box (n : nat) (bfr jr : R) (g : rng) :
  0 <= bfr -> 0 <= jr -> tape_ok g ->
  Forall (in_box bfr jr) (fst (sample_coords n bfr jr g)).
Proof.
  intros Hb Hj. revert g. induction n as [|n IH]; intros g Hg.
  - constructor.
  - rewrite sample_coords_S. simpl fst. constructor.
    + repeat split; apply uniform_unit_bounds; auto; apply Hg.
    + apply IH. apply tape_ok_advance. exact Hg.
Qed.

Lemma euclidean_sym (a b : vec3) : euclidean a b = euclidean b a.
Proof.
  destruct a as [[a0 a1] a2], b as [[b0 b1] b2].
  unfold euclidean, vsub, norm3. f_equal. ring.
Qed.

Lemma euclidean_nonneg (a b : vec3) : 0 <= euclidean a b.
Proof.
  unfold euclidean. destruct (vsub a b) as [[x y] z].
  unfold norm3. apply sqrt_pos.
Qed.

Lemma checkList_in (N : nat) (collision : list (list bool)) (i j : nat) :
  (i < j < N)%nat ->
  In (nth j (nth i collision []) false) (checkList N collision).
Proof.
  intros H. unfold checkList.
  apply in_flat_map. exists i. split; [apply in_seq; lia|].
  apply in_flat_map. exists j. split; [apply in_seq; lia|].
  rewrite (proj2 (Nat.ltb_lt i j)) by lia. left. reflexivity.
Qed.

Lemma checkList_elim (N : nat) (collision : list (list bool)) (b : bool) :
  In b (checkList N collision) ->
  exists i j, (i < j < N)%nat /\ b = nth j (nth i collision []) false.
Proof.
  unfold checkList. intros H.
  apply in_flat_map in H as (i & Hi & H).
  apply in_flat_map in H as (j & Hj & H).
  apply in_seq in Hi, Hj.
  destruct (i <? j)%nat eqn:E; [|contradiction].
  apply Nat.ltb_lt in E. destruct H as [<-|[]].
  exists i, j. split; [lia | reflexivity].
Qed.

Lemma nth_map_nth_error {A B : Type} (f : A -> B) (l : list A) (i : nat)
  (x : A) (d : B) :
  nth_error l i = Some x -> nth i (map f l) d = f x.
Proof.
  intros H. apply nth_error_nth.
  rewrite nth_error_map, H. reflexivity.
Qed.

Lemma collision_nth (coords : list vec3) (radius_max : R) (i j : nat)
  (ci cj : vec3) :
  nth_error coords i = Some ci ->
  nth_error coords j = Some cj ->
  nth j (nth i (collision_matrix (cdist coords coords) radius_max) []) false
  = Rltb (euclidean ci cj) (2 * radius_max).
Proof.
  intros Hi Hj. unfold collision_matrix, cdist.
  rewrite map_map.
  rewrite (nth_map_nth_error _ coords i ci [] Hi).
  rewrite map_map.
  exact (nth_map_nth_error
           (fun x => Rltb (euclidean ci x) (2 * radius_max))
           coords j cj false Hj).
Qed.

Lemma existsb_true_iff (l : list bool) :
  existsb (fun item => eqb item true) l = true <-> In true l.
Proof.
  rewrite existsb_exists. split.
  - intros (b & Hin & Hb). apply eqb_prop in Hb. subst. exact Hin.
  - intros H. exists true. split; [exact H | reflexivity].
Qed.

(** The check list of a candidate set of the right length finds a
    collision exactly when two of its rows are closer than twice the
    exclusion radius. *)
Lemma candidate_checkList_sound (particles : counts) (coords : list vec3) :
  length coords = row_count particles ->
  (existsb (fun item => eqb item true)
     (candidate_checkList particles coords) = false
   <-> non_overlapping (maxRadius particles) coords).
Proof.
  intros Hlen. unfold candidate_checkList. split.
  - intros Hclear.
    assert (Hlt : forall i j ci cj, (i < j)%nat ->
               nth_error coords i = Some ci ->
               nth_error coords j = Some cj ->
               2 * maxRadius particles <= euclidean ci cj).
    { intros i j ci cj Hij Hi Hj.
      assert (Hjn : (j < row_count particles)%nat).
      { rewrite <- Hlen. apply nth_error_Some. congruence. }
      pose proof (checkList_in (row_count particles)
                    (collision_matrix (cdist coords coords)
                       (maxRadius particles)) i j (conj Hij Hjn)) as Hin.
      rewrite (collision_nth coords _ i j ci cj Hi Hj) in Hin.
      unfold Rltb in Hin.
      destruct (Rlt_dec (euclidean ci cj) (2 * maxRadius particles));
        [|lra].
      apply existsb_true_iff in Hin. congruence. }
    intros i j ci cj Hne Hi Hj.
    destruct (Nat.lt_total i j) as [H|[H|H]].
    + exact (Hlt i j ci cj H Hi Hj).
    + contradiction.
    + rewrite euclidean_sym. exact (Hlt j i cj ci H Hj Hi).
  - intros Hno.
    destruct (existsb _ _) eqn:E; [|reflexivity].
    apply existsb_true_iff in E.
    apply checkList_elim in E as (i & j & Hij & E).
    assert (Hi : (i < length coords)%nat) by lia.
    assert (Hj : (j < length coords)%nat) by lia.
    apply nth_error_Some in Hi, Hj.
    destruct (nth_error coords i) as [ci|] eqn:Ei; [|contradiction].
    destruct (nth_error coords j) as [cj|] eqn:Ej; [|contradiction].
    rewrite (collision_nth coords _ i j ci cj Ei Ej) in E.
    assert (Hd := Hno i j ci cj ltac:(lia) Ei Ej).
    rewrite Rltb_false in E by exact Hd. discriminate.
Qed.

Lemma distribute_rng (depth : nat) (particles : counts) (bfr jr : R) :
  forall (g g' : rng) (state : list Particle) (coords : list vec3),
    distribute depth particles bfr jr g = Ok (state, coords, g') ->
    exists k, (1 <= k <= depth)%nat
      /\ g' = advance (3 * row_count particles * k) g.
Proof.
  induction depth as [|depth IH]; intros g g' state coords H;
    [discriminate|].
  pose proof (distribute_ok_nonneg _ _ _ _ _ _ H) as HN. revert H.
  rewrite distribute_S by exact HN. cbv zeta.
  rewrite (proj2 (sample_coords_spec (row_count particles) bfr jr g)).
  destruct (existsb _ _).
  - destruct (distribute depth particles bfr jr _) as [[[s c] g2]|e] eqn:Hrec;
      simpl; [|discriminate].
    intros [= _ _ <-].
    apply IH in Hrec as (k & Hk & ->).
    exists (S k). split; [lia|].
    rewrite advance_advance. f_equal. lia.
  - intros [= _ _ <-]. exists 1%nat. split; [lia|]. f_equal. lia.
Qed.

(** X2. Whenever [distribute] returns, the particle list holds each
    species as many times as its count (not at all for a count that is
    not positive), the sum [N] of the counts is not negative and the
    coordinate array has [N] rows; the particle list is never shorter than
    the coordinate array, as long when no count is negative and longer
    when one is; the rows are those of the first attempt of this call
    (later attempts only advance the generator, by [3 N] samples each),
    and the rows keep the exclusion distance exactly when that first
    attempt had no collision. *)
Theorem distribute_returns_first_attempt (depth : nat) (particles : counts)
  (beam_focus_radius jet_radius : R) (g g' : rng)
  (state : list Particle) (coords : list vec3) :
  distribute depth particles beam_focus_radius jet_radius g
  = Ok (state, coords, g') ->
  state = expand_state particles
  /\ (0 <= total_count particles)%Z
  /\ Z.of_nat (length coords) = total_count particles
  /\ (length coords <= length state)%nat
  /\ (Forall (fun pc => (0 <= snd pc)%Z) particles ->
      length state = length coords)
  /\ (Exists (fun pc => (snd pc < 0)%Z) particles ->
      (length coords < length state)%nat)
  /\ coords = fst (sample_coords (row_count particles)
                     beam_focus_radius jet_radius g)
  /\ (exists k, (1 <= k <= depth)%nat
        /\ g' = advance (3 * row_count particles * k) g)
  /\ (non_overlapping (maxRadius particles) coords
      <-> first_candidate_clear particles beam_focus_radius jet_radius g).
Proof.
  intros H.
  pose proof (distribute_rng _ _ _ _ _ _ _ _ H) as Hk.
  pose proof (distribute_ok_nonneg _ _ _ _ _ _ H) as HN.
  destruct (distribute_lengths _ _ _ _ _ _ _ _ H) as (Hrows & Hle & Heq).
  apply distribute_first_candidate in H as [Hs Hc].
  split; [exact Hs|]. split; [exact HN|].
  split; [rewrite Hrows; unfold row_count; lia|].
  split; [exact Hle|]. split; [exact Heq|].
  split.
  { intros Hneg. apply expand_state_length_neg in Hneg.
    rewrite Hs, Hrows. unfold row_count. lia. }
  split; [exact Hc|]. split; [exact Hk|].
  unfold first_candidate_clear. rewrite <- Hc.
  symmetry. apply candidate_checkList_sound. exact Hrows.
Qed.

(** X3. Every row that [distribute] returns lies in the confinement box:
    x and y within the beam focus radius, z within the jet radius. *)
Theorem distribute_in_box (depth : nat) (particles : counts)
  (beam_focus_radius jet_radius : R) (g g' : rng)
  (state : list Particle) (coords : list vec3) :
  0 <= beam_focus_radius ->
  0 <= jet_radius ->
  tape_ok g ->
  distribute depth particles beam_focus_radius jet_radius g
  = Ok (state, coords, g') ->
  Forall (in_box beam_focus_radius jet_radius) coords.
Proof.
  intros Hb Hj Hg H.
  apply distribute_first_candidate in H as [_ ->].
  apply sample_coords_in_box; assumption.
Qed.

Lemma distribute_clear_run (depth : nat) (particles : counts)
  (bfr jr : R) (g : rng) :
  (0 <= total_count particles)%Z ->
  first_candidate_clear particles bfr jr g ->
  distribute (S depth) particles bfr jr g
  = Ok (expand_state particles,
        fst (sample_coords (row_count particles) bfr jr g),
        advance (3 * row_count particles) g).
Proof.
  intros HN Hclear. rewrite distribute_S by exact HN. cbv zeta.
  unfold first_candidate_clear in Hclear. rewrite Hclear.
  rewrite (proj2 (sample_coords_spec _ _ _ _)). reflexivity.
Qed.

(** X4. When the sum [N] of the counts is not negative and the first
    candidate set has no colliding pair, [distribute] returns it at once,
    after exactly [3 N] samples and with a single stack frame, and the
    returned rows keep the exclusion distance. *)
Theorem distribute_accepts_clear_candidate (depth : nat) (particles : counts)
  (beam_focus_radius jet_radius : R) (g : rng) :
  (0 <= total_count particles)%Z ->
  first_candidate_clear particles beam_focus_radius jet_radius g ->
  distribute (S depth) particles beam_focus_radius jet_radius g
  = Ok (expand_state particles,
        fst (sample_coords (row_count particles)
               beam_focus_radius jet_radius g),
        advance (3 * row_count particles) g)
  /\ non_overlapping (maxRadius particles)
       (fst (sample_coords (row_count particles)
               beam_focus_radius jet_radius g)).
Proof.
  intros HN Hclear. split.
  - apply distribute_clear_run; assumption.
  - apply candidate_checkList_sound; [apply sample_coords_spec | exact Hclear].
Qed.

(** X5. [distribute] raises two exceptions only: [ValueError], exactly
    when the sum of the counts is negative ([np.zeros] refuses a negative
    number of rows, before any sample is drawn), and otherwise
    [RecursionError], which it raises only after a first attempt with a
    collision. *)
Theorem distribute_raises_ValueError_or_RecursionError (depth : nat)
  (particles : counts) (beam_focus_radius jet_radius : R) (g : rng)
  (e : pyerr) :
  distribute (S depth) particles beam_focus_radius jet_radius g = Err e ->
  ((total_count particles < 0)%Z /\ e = ValueError)
  \/ ((0 <= total_count particles)%Z
      /\ e = RecursionError
      /\ ~ first_candidate_clear particles beam_focus_radius jet_radius g).
Proof.
  intros H.
  destruct (Z.ltb_spec (total_count particles) 0) as [HN|HN].
  - left. split; [exact HN|].
    rewrite distribute_negative in H by exact HN. congruence.
  - right. split; [exact HN|]. split.
    + revert g H. induction depth as [|depth IH]; intros g;
        rewrite distribute_S by exact HN; cbv zeta; destruct (existsb _ _);
        try discriminate.
      * simpl. congruence.
      * destruct (distribute (S depth) particles _ _ _)
          as [[[s c] g2]|e'] eqn:Hrec; simpl; [discriminate|].
        intros [= <-]. exact (IH _ Hrec).
    + intros Hclear.
      rewrite (distribute_clear_run depth particles
                 beam_focus_radius jet_radius g HN Hclear) in H.
      discriminate.
Qed.

Lemma maxRadius_nonneg (particles : counts) : 0 <= maxRadius particles.
Proof. unfold maxRadius. rewrite maxRadius_fold. apply species_fold_ge. Qed.

Lemma square_diff_bound (b x0 x1 : R) :
  - b <= x0 <= b -> - b <= x1 <= b -> (x0 - x1) ^ 2 <= 4 * b ^ 2.
Proof. intros H0 H1. nra. Qed.

Lemma small_box_collision (particles : counts) (bfr jr : R)
  (coords : list vec3) :
  (2 <= row_count particles)%nat ->
  length coords = row_count particles ->
  Forall (in_box bfr jr) coords ->
  bfr ^ 2 + bfr ^ 2 + jr ^ 2 < maxRadius particles ^ 2 ->
  existsb (fun item => eqb item true) (candidate_checkList particles coords)
  = true.
Proof.
  intros HN Hlen Hbox Hsmall.
  destruct coords as [|c0 [|c1 rest]]; simpl in Hlen; try lia.
  apply existsb_true_iff. unfold candidate_checkList.
  pose proof (checkList_in (row_count particles)
                (collision_matrix (cdist (c0 :: c1 :: rest) (c0 :: c1 :: rest))
                   (maxRadius particles)) 0 1 ltac:(lia)) as Hin.
  rewrite (collision_nth (c0 :: c1 :: rest) (maxRadius particles) 0 1 c0 c1
             eq_refl eq_refl) in Hin.
  rewrite Rltb_true in Hin; [exact Hin|].
  pose proof (Forall_inv Hbox) as Hc0.
  pose proof (Forall_inv (Forall_inv_tail Hbox)) as Hc1.
  destruct c0 as [[x0 y0] z0], c1 as [[x1 y1] z1].
  destruct Hc0 as (Hx0 & Hy0 & Hz0). destruct Hc1 as (Hx1 & Hy1 & Hz1).
  pose proof (maxRadius_nonneg particles) as Hr.
  unfold euclidean, vsub. apply norm3_lt; [lra|].
  pose proof (square_diff_bound bfr x0 x1 Hx0 Hx1).
  pose proof (square_diff_bound bfr y0 y1 Hy0 Hy1).
  pose proof (square_diff_bound jr z0 z1 Hz0 Hz1).
  nra.
Qed.

(** X6. With at least two particles and a confinement box whose
    half-diagonal is shorter than the exclusion radius
    ([2 beam_focus_radius^2 + jet_radius^2 < radius_max^2]), every
    candidate set collides: [distribute] never returns, whatever the
    samples and however deep the stack, and ends in [RecursionError]. *)
Theorem distribute_unsatisfiable (depth : nat) (particles : counts)
  (beam_focus_radius jet_radius : R) (g : rng) :
  (2 <= total_count particles)%Z ->
  0 <= beam_focus_radius ->
  0 <= jet_radius ->
  tape_ok g ->
  beam_focus_radius ^ 2 + beam_focus_radius ^ 2 + jet_radius ^ 2
  < maxRadius particles ^ 2 ->
  distribute depth particles beam_focus_radius jet_radius g
  = Err RecursionError.
Proof.
  intros HN Hb Hj Hg Hsmall. revert g Hg.
  induction depth as [|depth IH]; intros g Hg; [reflexivity|].
  rewrite distribute_S by lia. cbv zeta.
  rewrite (small_box_collision particles beam_focus_radius jet_radius);
    try assumption.
  - rewrite IH; [reflexivity|].
    rewrite (proj2 (sample_coords_spec _ _ _ _)).
    apply tape_ok_advance. exact Hg.
  - unfold row_count. lia.
  - apply sample_coords_spec.
  - apply sample_coords_in_box; assumption.
Qed.

Lemma zero_radius_clear (particles : counts) (coords : list vec3) :
  maxRadius particles = 0 ->
  length coords = row_count particles ->
  existsb (fun item => eqb item true) (candidate_checkList particles coords)
  = false.
Proof.
  intros Hr Hlen. apply candidate_checkList_sound; [exact Hlen|].
  intros i j ci cj _ _ _. rewrite Hr.
  pose proof (euclidean_nonneg ci cj). lra.
Qed.

Lemma single_atom_radius (a : vec3) :
  norm3 (vsub a (mean_axis0 [a])) = 0.
Proof.
  destruct a as [[x y] z]. unfold mean_axis0, Rsum, vsub. simpl.
  apply norm3_eq; [lra|]. field.
Qed.

Lemma single_atoms_maxRadius (particles : counts) :
  Forall (fun pc => exists a, atom_pos (fst pc) = [a]) particles ->
  maxRadius particles = 0.
Proof.
  intros H. unfold maxRadius. rewrite maxRadius_fold.
  induction H as [|pc particles [a Ha] _ IH]; [reflexivity|].
  simpl. unfold radius_arr at 2. rewrite Ha. simpl.
  rewrite single_atom_radius, Rltb_false by lra. exact IH.
Qed.

(** X7. When every species is a single atom the exclusion radius is zero
    and no candidate is ever rejected: for any number [N >= 0] of
    particles [distribute] returns its first attempt, after exactly [3 N]
    samples, even when rows coincide. *)
Theorem distribute_single_atoms_never_resamples (depth : nat)
  (particles : counts) (beam_focus_radius jet_radius : R) (g : rng) :
  Forall (fun pc => exists a, atom_pos (fst pc) = [a]) particles ->
  (0 <= total_count particles)%Z ->
  maxRadius particles = 0
  /\ distribute (S depth) particles beam_focus_radius jet_radius g
     = Ok (expand_state particles,
           fst (sample_coords (row_count particles)
                  beam_focus_radius jet_radius g),
           advance (3 * row_count particles) g).
Proof.
  intros H HN. pose proof (single_atoms_maxRadius particles H) as Hr.
  split; [exact Hr|].
  apply distribute_clear_run; [exact HN|]. unfold first_candidate_clear.
  apply zero_radius_clear; [exact Hr | apply sample_coords_spec].
Qed.

(** ** Further properties of the coherent synthesis *)

Lemma squared_magnitude_phase (z : complex) (qv coord : vec3) :
  squared_magnitude (Cmul z (phase_factor qv coord)) = squared_magnitude z.
Proof.
  unfold squared_magnitude, Cmul, phase_factor. simpl.
  set (t := 2 * PI * 1e-10 * dot3 qv coord).
  pose proof (sin2_cos2 t) as H. unfold Rsqr in H.
  replace ((re z * cos t - im z * sin t) * ((re z * cos t - im z * sin t) * 1)
           + (re z * sin t + im z * cos t)
             * ((re z * sin t + im z * cos t) * 1))
    with ((re z * re z + im z * im z) * (sin t * sin t + cos t * cos t))
    by ring.
  rewrite H. ring.
Qed.

Lemma squared_magnitude_double (w : complex) :
  squared_magnitude (Cadd w w) = 4 * squared_magnitude w.
Proof. unfold squared_magnitude, Cadd. simpl. ring. Qed.

Lemma map_zip_with_phase (h : complex -> R) (k : complex -> R)
  (f : list complex) (q : list vec3) (coord : vec3) :
  (forall z qv, h (Cmul z (phase_factor qv coord)) = k z) ->
  length f = length q ->
  map h (zip_with Cmul f (map (fun qv => phase_factor qv coord) q))
  = map k f.
Proof.
  intros Hh. revert q. unfold zip_with.
  induction f as [|z f IH]; intros [|qv q] Hlen; simpl in *;
    try discriminate; [reflexivity|].
  f_equal; [apply Hh | apply IH; lia].
Qed.

Lemma map_zip_with_double (t : list complex) :
  map squared_magnitude (zip_with Cadd t t)
  = map (fun w => 4 * squared_magnitude w) t.
Proof.
  unfold zip_with. induction t as [|w t IH]; [reflexivity|].
  simpl. f_equal; [apply squared_magnitude_double | exact IH].
Qed.

Lemma shifted_field_value (d : DetectorBase) (p : Particle) (coord : vec3)
  (q : list vec3) (f : list complex) :
  pixel_position_reciprocal d = Some q ->
  calculate_diffraction_pattern_gpu (Some q) p rt_complex_field = Ok f ->
  length f = length q ->
  shifted_field d p coord
  = Ok (zip_with Cmul f (map (fun qv => phase_factor qv coord) q)).
Proof.
  intros Hq Hk Hlen.
  unfold shifted_field, get_pattern_without_corrections.
  rewrite Hq, Hk. cbn [bind np_dot_attr].
  unfold broadcast_inplace. rewrite length_map.
  rewrite (proj2 (Nat.eqb_eq _ _) Hlen). reflexivity.
Qed.

(** X8. With a single placed particle (one entry in the particle list,
    counts summing to one) the phase factor has modulus one and leaves no
    trace: [get_fxs_photons] is the correction and quantization of the
    squared magnitude of the particle's complex field, whatever coordinate
    was drawn, on the generator state that follows the three placement
    samples. *)
Theorem get_fxs_photons_single_particle (depth : nat) (d : DetectorBase)
  (particles : counts) (p : Particle) (beam_focus_radius jet_radius : R)
  (g : rng) (q : list vec3) (f : list complex) :
  expand_state particles = [p] ->
  total_count particles = 1%Z ->
  pixel_position_reciprocal d = Some q ->
  calculate_diffraction_pattern_gpu (Some q) p rt_complex_field = Ok f ->
  length f = length q ->
  get_fxs_photons (S depth) d particles beam_focus_radius jet_radius g
  = add_correction_and_quantization d (map squared_magnitude f) (advance 3 g).
Proof.
  intros Hst HN Hq Hk Hlen.
  unfold get_fxs_photons.
  rewrite (distribute_single_run depth particles _ _ g HN). cbn [bind].
  rewrite fxs_loop_fold by (rewrite Hst; reflexivity).
  rewrite Hst. cbn [combine fxs_fold fst snd].
  rewrite (shifted_field_value d p _ q f Hq Hk Hlen). cbn [bind].
  rewrite square_abs_squared_magnitude.
  rewrite (map_zip_with_phase squared_magnitude squared_magnitude)
    by (auto using squared_magnitude_phase).
  reflexivity.
Qed.

(** X9. Two instances of one single-point species (exclusion radius zero,
    two entries in the particle list, counts summing to two) that the
    samples put on the same coordinate add up coherently: the means passed
    to the quantization are four times the squared magnitude of the single
    field. *)
Theorem get_fxs_photons_coincident_pair (depth : nat) (d : DetectorBase)
  (particles : counts) (p : Particle) (beam_focus_radius jet_radius : R)
  (g : rng) (q : list vec3) (f : list complex) :
  expand_state particles = [p; p] ->
  total_count particles = 2%Z ->
  maxRadius particles = 0 ->
  tape g (pos g + 3) = tape g (pos g) ->
  tape g (pos g + 3 + 1) = tape g (pos g + 1) ->
  tape g (pos g + 3 + 2) = tape g (pos g + 2) ->
  pixel_position_reciprocal d = Some q ->
  calculate_diffraction_pattern_gpu (Some q) p rt_complex_field = Ok f ->
  length f = length q ->
  get_fxs_photons (S depth) d particles beam_focus_radius jet_radius g
  = add_correction_and_quantization d
      (map (fun z => 4 * squared_magnitude z) f) (advance 6 g).
Proof.
  intros Hst HN Hr H0 H1 H2 Hq Hk Hlen.
  assert (Hrows : row_count particles = 2%nat)
    by (unfold row_count; rewrite HN; reflexivity).
  unfold get_fxs_photons.
  rewrite distribute_clear_run
    by first [ lia
             | apply zero_radius_clear;
               [exact Hr | apply sample_coords_spec] ].
  rewrite Hrows, !sample_coords_S.
  cbn [bind fst snd sample_coords advance tape pos].
  rewrite H0, H1, H2.
  rewrite fxs_loop_fold by (rewrite Hst; reflexivity).
  rewrite Hst. cbn [combine fxs_fold fst snd].
  rewrite (shifted_field_value d p _ q f Hq Hk Hlen). cbn [bind].
  unfold broadcast_inplace at 1. rewrite Nat.eqb_refl. cbn [bind].
  rewrite square_abs_squared_magnitude, map_zip_with_double.
  rewrite (map_zip_with_phase (fun w => 4 * squared_magnitude w)
             (fun z => 4 * squared_magnitude z))
    by (intros; try rewrite squared_magnitude_phase; auto).
  reflexivity.
Qed.

Lemma distribute_err (depth : nat) (particles : counts) (bfr jr : R) :
  forall (g : rng) (e : pyerr),
    distribute depth particles bfr jr g = Err e ->
    e = RecursionError \/ e = ValueError.
Proof.
  induction depth as [|depth IH]; intros g e.
  - simpl. intros [= <-]. left. reflexivity.
  - destruct (Z.ltb_spec (total_count particles) 0) as [HN|HN].
    + rewrite distribute_negative by exact HN. intros [= <-].
      right. reflexivity.
    + rewrite distribute_S by exact HN. cbv zeta.
      destruct (existsb _ _); [|discriminate].
      destruct (distribute depth particles _ _ _) as [[[s c] g2]|e'] eqn:Hrec;
        simpl; [discriminate|].
      intros [= <-]. exact (IH _ _ Hrec).
Qed.

Lemma broadcast_inplace_err {A B : Type} (f : A -> B -> A)
  (a : list A) (b : list B) (e : pyerr) :
  broadcast_inplace f a b = Err e -> e = ValueError.
Proof.
  unfold broadcast_inplace.
  destruct (length a =? length b)%nat; [discriminate|].
  destruct b as [|y [|y' b]]; congruence.
Qed.

Lemma broadcast2_err {A B D : Type} (f : A -> B -> D)
  (a : list A) (b : list B) (e : pyerr) :
  broadcast2 f a b = Err e -> e = ValueError.
Proof.
  unfold broadcast2.
  destruct (length a =? length b)%nat; [discriminate|].
  destruct a as [|x [|x' a]]; destruct b as [|y [|y' b]]; congruence.
Qed.

Lemma fxs_fold_err (d : DetectorBase) (placed : list (Particle * vec3)) :
  forall (acc : option (list complex)) (e : pyerr),
    fxs_fold d placed acc = Err e ->
    e = TypeError \/ e = ValueError
    \/ exists q p, calculate_diffraction_pattern_gpu q p rt_complex_field
                   = Err e.
Proof.
  induction placed as [|pc placed IH]; intros acc e; simpl; [discriminate|].
  unfold shifted_field at 1, get_pattern_without_corrections.
  destruct (calculate_diffraction_pattern_gpu _ (fst pc) rt_complex_field)
    as [field|e'] eqn:Hk; cbn [bind].
  2:{ intros [= <-]. right. right. eauto. }
  destruct (pixel_position_reciprocal d) as [q|]; cbn [bind np_dot_attr].
  2:{ intros [= <-]. left. reflexivity. }
  destruct (broadcast_inplace Cmul field _) as [this_data|e'] eqn:Hm;
    cbn [bind].
  2:{ intros [= <-]. right. left. exact (broadcast_inplace_err _ _ _ _ Hm). }
  destruct acc as [acc|]; [|apply IH].
  destruct (broadcast_inplace Cadd acc this_data) as [acc'|e'] eqn:Ha;
    cbn [bind]; [apply IH|].
  intros [= <-]. right. left. exact (broadcast_inplace_err _ _ _ _ Ha).
Qed.

Lemma fxs_loop_err (d : DetectorBase) (state : list Particle)
  (coords : list vec3) :
  forall (indices : list nat) (acc : option (list complex)) (e : pyerr),
    fxs_loop d state coords indices acc = Err e ->
    e = TypeError \/ e = ValueError \/ e = IndexError
    \/ exists q p, calculate_diffraction_pattern_gpu q p rt_complex_field
                   = Err e.
Proof.
  induction indices as [|i rest IH]; intros acc e; cbn [fxs_loop];
    [discriminate|].
  unfold index, get_pattern_without_corrections.
  destruct (nth_error state i) as [particle|]; cbn [bind].
  2:{ intros [= <-]. auto. }
  destruct (calculate_diffraction_pattern_gpu _ particle rt_complex_field)
    as [field|e'] eqn:Hk; cbn [bind].
  2:{ intros [= <-]. right. right. right. eauto. }
  destruct (nth_error coords i) as [coord|]; cbn [bind].
  2:{ intros [= <-]. auto. }
  destruct (pixel_position_reciprocal d) as [q|]; cbn [bind np_dot_attr].
  2:{ intros [= <-]. auto. }
  destruct (broadcast_inplace Cmul field _) as [this_data|e'] eqn:Hm;
    cbn [bind].
  2:{ intros [= <-]. right. left. exact (broadcast_inplace_err _ _ _ _ Hm). }
  destruct acc as [acc|]; [|apply IH].
  destruct (broadcast_inplace Cadd acc this_data) as [acc'|e'] eqn:Ha;
    cbn [bind]; [apply IH|].
  intros [= <-]. right. left. exact (broadcast_inplace_err _ _ _ _ Ha).
Qed.

Lemma counts_sign (particles : counts) :
  Forall (fun pc => (0 <= snd pc)%Z) particles
  \/ Exists (fun pc => (snd pc < 0)%Z) particles.
Proof.
  induction particles as [|pc particles [IH|IH]].
  - left. constructor.
  - destruct (Z.ltb_spec (snd pc) 0) as [H|H].
    + right. left. exact H.
    + left. constructor; assumption.
  - right. right. exact IH.
Qed.

(** X10. The exceptions of [get_fxs_photons]: [ValueError] or
    [RecursionError] from the placement, [TypeError] (a detector that is
    not initialized, or no particle), [ValueError] (shapes that do not
    broadcast), [IndexError] from its own indexing, which needs a negative
    count (the particle list is then longer than the coordinate array), or
    what the diffraction kernel or the Poisson sampler raised.  With a
    negative count the call always ends in an exception. *)
Theorem get_fxs_photons_exceptions (depth : nat) (d : DetectorBase)
  (particles : counts) (beam_focus_radius jet_radius : R) (g : rng) :
  (forall e,
      get_fxs_photons depth d particles beam_focus_radius jet_radius g
      = Err e ->
      e = RecursionError \/ e = TypeError \/ e = ValueError
      \/ (e = IndexError /\ Exists (fun pc => (snd pc < 0)%Z) particles)
      \/ (exists q p,
             calculate_diffraction_pattern_gpu q p rt_complex_field = Err e)
      \/ (exists lam g1, np_random_poisson lam g1 = Err e))
  /\ (Exists (fun pc => (snd pc < 0)%Z) particles ->
      exists e,
        get_fxs_photons depth d particles beam_focus_radius jet_radius g
        = Err e).
Proof.
  unfold get_fxs_photons.
  destruct (distribute depth particles beam_focus_radius jet_radius g)
    as [[[state coords] g1]|e'] eqn:Hd; cbn [bind].
  2:{ split; [|eauto]. intros e [= <-].
      destruct (distribute_err _ _ _ _ _ _ Hd) as [-> | ->]; auto. }
  destruct (distribute_lengths _ _ _ _ _ _ _ _ Hd) as (Hrows & Hle & Heq).
  split.
  - intros e.
    destruct (fxs_loop d state coords (seq 0 (length state)) None)
      as [[raw|]|e'] eqn:Hf; cbn [bind].
    + unfold add_correction_and_quantization, np_multiply_attr.
      destruct (linear_correction d) as [lc|]; cbn [bind].
      * destruct (np_multiply (square_abs raw) lc) as [m|e'] eqn:Hm;
          cbn [bind].
        -- intros H. do 5 right. eauto.
        -- intros [= <-]. right. right. left.
           exact (broadcast2_err _ _ _ _ Hm).
      * destruct (square_abs raw); cbn [bind].
        -- intros H. do 5 right. eauto.
        -- intros [= <-]. right. left. reflexivity.
    + intros [= <-]. right. left. reflexivity.
    + intros [= <-].
      destruct (counts_sign particles) as [Hpos|Hneg].
      * rewrite (fxs_loop_fold d state coords None (Heq Hpos)) in Hf.
        destruct (fxs_fold_err d _ _ _ Hf) as [->|[->|H]]; auto 6.
      * destruct (fxs_loop_err d state coords _ _ _ Hf) as [-> | [-> | [-> | H]]];
          auto 6.
  - intros Hneg.
    destruct (fxs_loop d state coords (seq 0 (length state)) None)
      as [r|e'] eqn:Hf; cbn [bind]; [|eauto].
    apply fxs_loop_needs_rows in Hf; [|exact Hle].
    apply expand_state_length_neg in Hneg.
    pose proof (distribute_ok_nonneg _ _ _ _ _ _ Hd) as HN.
    apply distribute_first_candidate in Hd as [Hs _].
    rewrite Hs, Hrows in Hf. unfold row_count in Hf. exfalso. lia.
Qed.

(** ** Further properties of the mesh sizing *)

Lemma np_min_ok (a axis : pynum) (m : R) :
  np_min a axis = Ok m <->
  (axis = PyInt 0 \/ axis = PyInt (-1)) /\ m = pynum_val a.
Proof.
  unfold np_min. destruct axis as [k|h].
  - destruct (Z.eqb k 0) eqn:E0; [|destruct (Z.eqb k (-1)) eqn:E1]; simpl.
    + apply Z.eqb_eq in E0. subst. split.
      * intros [= <-]. auto.
      * intros [_ ->]. reflexivity.
    + apply Z.eqb_eq in E1. subst. split.
      * intros [= <-]. auto.
      * intros [_ ->]. reflexivity.
    + apply Z.eqb_neq in E0, E1. split; [discriminate|].
      intros [[[= ->]|[= ->]] _]; contradiction.
  - split; [discriminate|]. intros [[H|H] _]; discriminate.
Qed.

(** X11. [preferred_voxel_length] gives a real number exactly when
    [pixel_height] is the integer 0 or -1 (the only axes [np.min] accepts
    for a scalar) and [distance * pixel_width] is not zero, and the number
    is then the norm of the wave vector over [distance * pixel_width]:
    the value of [pixel_height] never enters it and no minimum is taken. *)
Theorem preferred_voxel_length_returns (d : DetectorBase)
  (wave_vector : list R) (v : R) :
  preferred_voxel_length d wave_vector = Ok v
  <-> (pixel_height d = PyInt 0 \/ pixel_height d = PyInt (-1))
      /\ distance d * pynum_val (pixel_width d) <> 0
      /\ v = sqrt (Rsum (map (fun x => x * x) wave_vector))
             / (distance d * pynum_val (pixel_width d)).
Proof.
  unfold preferred_voxel_length. split.
  - destruct (np_min (pixel_width d) (pixel_height d)) as [m|e] eqn:Hm;
      cbn [bind]; [|discriminate].
    apply np_min_ok in Hm as [Hax ->].
    unfold np_divide. destruct (Req_dec_T _ 0) as [|Hne]; [discriminate|].
    intros [= <-]. auto.
  - intros (Hax & Hne & ->).
    rewrite (proj2 (np_min_ok (pixel_width d) (pixel_height d) _)
               (conj Hax eq_refl)).
    cbn [bind]. unfold np_divide.
    destruct (Req_dec_T _ 0); [contradiction | reflexivity].
Qed.

(** ** Further properties of the initialization and the corrections *)

(** The attributes that [initialize_pixels_with_beam] does not assign. *)
Definition same_static (d d' : DetectorBase) : Prop :=
  distance d' = distance d
  /\ pixel_width d' = pixel_width d
  /\ pixel_height d' = pixel_height d
  /\ pixel_area d' = pixel_area d
  /\ orientation d' = orientation d
  /\ pixel_position d' = pixel_position d
  /\ pixel_rms d' = pixel_rms d.

Lemma same_static_refl (d : DetectorBase) : same_static d d.
Proof. repeat split. Qed.

(** X13. A completed initialization depends on the beam and on the static
    geometry only: initializing again, with any beam, a detector that was
    already initialized gives exactly the detector that the same call
    makes of the original one (in particular, repeating the call with the
    same beam changes nothing), and the static attributes are untouched. *)
Theorem initialize_pixels_with_beam_overrides
  (d d1 d2 : DetectorBase) (beam1 beam2 : Beam) :
  initialize_pixels_with_beam d beam1 = (d1, Ok tt) ->
  initialize_pixels_with_beam d beam2 = (d2, Ok tt) ->
  initialize_pixels_with_beam d1 beam2 = (d2, Ok tt)
  /\ same_static d d1.
Proof.
  intros H1 H2.
  destruct (initialize_pixels_with_beam_ok d d1 beam1 H1)
    as (ppr1 & pdr1 & pol1 & sa1 & prod1 & _ & _ & _ & ->).
  destruct (initialize_pixels_with_beam_ok d d2 beam2 H2)
    as (ppr2 & pdr2 & pol2 & sa2 & prod2 & Harea & Hgeo & Hprod & ->).
  split; [|repeat split].
  unfold initialize_pixels_with_beam, py_div.
  destruct (Req_dec_T (get_focus_area beam2) 0); [contradiction|].
  cbn [set_linear_correction set_reciprocal pixel_position pixel_area
       orientation].
  rewrite Hgeo, Hprod. reflexivity.
Qed.

(** X14. A failed initialization never changes [linear_correction]: the
    detector is left as it was, or, when the polarization and solid-angle
    arrays do not broadcast ([ValueError]), it already holds the four new
    geometry arrays beside the previous linear correction. *)
Theorem initialize_pixels_with_beam_failure
  (d d' : DetectorBase) (beam : Beam) (e : pyerr) :
  initialize_pixels_with_beam d beam = (d', Err e) ->
  linear_correction d' = linear_correction d
  /\ same_static d d'
  /\ (d' = d
      \/ exists ppr pdr pol sa,
          e = ValueError
          /\ get_reciprocal_position_and_correction (pixel_position d)
               (Polarization beam) (get_wavevector beam) (pixel_area d)
               (orientation d) = Ok (ppr, pdr, pol, sa)
          /\ np_multiply pol sa = Err ValueError
          /\ d' = set_reciprocal d ppr pdr pol sa).
Proof.
  unfold initialize_pixels_with_beam.
  destruct (py_div _ _) as [intensity_per_area|e0].
  2:{ intros [= <- _]. repeat split. left. reflexivity. }
  destruct (get_reciprocal_position_and_correction _ _ _ _ _)
    as [[[[ppr pdr] pol] sa]|e0].
  2:{ intros [= <- _]. repeat split. left. reflexivity. }
  destruct (np_multiply pol sa) as [prod|e0] eqn:Hprod; [discriminate|].
  intros [= <- <-].
  pose proof (broadcast2_err _ _ _ _ Hprod) as ->.
  repeat split. right. exists ppr, pdr, pol, sa. repeat split. exact Hprod.
Qed.

Lemma zip_with_comm3 (p a b : list R) :
  zip_with Rmult (zip_with Rmult p a) b
  = zip_with Rmult (zip_with Rmult p b) a.
Proof.
  revert a b. unfold zip_with.
  induction p as [|x p IH]; intros [|y a] [|z b]; simpl;
    try reflexivity.
  f_equal; [ring | apply IH].
Qed.

(** X15. On a pattern of the shape of the pixel arrays the solid-angle
    and the polarization corrections commute. *)
Theorem solid_angle_polarization_commute (d : DetectorBase)
  (pattern : list R) :
  same_shape (solid_angle_per_pixel d) pattern = true ->
  same_shape (polarization_correction d) pattern = true ->
  (p1 <- add_solid_angle_correction d pattern;;
   add_polarization_correction d p1)
  = (p1 <- add_polarization_correction d pattern;;
     add_solid_angle_correction d p1).
Proof.
  unfold add_solid_angle_correction, add_polarization_correction, same_shape.
  destruct (solid_angle_per_pixel d) as [sa|]; [|discriminate].
  destruct (polarization_correction d) as [pol|]; [|discriminate].
  intros Hsa Hpol. apply Nat.eqb_eq in Hsa, Hpol. simpl.
  rewrite (np_multiply_same_length pattern sa) by congruence.
  rewrite (np_multiply_same_length pattern pol) by congruence.
  cbn [bind].
  rewrite !np_multiply_same_length
    by (rewrite zip_with_length; congruence).
  f_equal. apply zip_with_comm3.
Qed.

Lemma zip_with_nonneg (a b : list R) :
  Forall (fun v => 0 <= v) a -> Forall (fun v => 0 <= v) b ->
  Forall (fun v => 0 <= v) (zip_with Rmult a b).
Proof.
  intros Ha. revert b. unfold zip_with.
  induction Ha as [|x a Hx _ IH]; intros b Hb; [constructor|].
  destruct Hb as [|y b Hy Hb]; [constructor|].
  simpl. constructor; [nra | apply IH; exact Hb].
Qed.

(** X16. After an initialization with a non-negative flux (photons per
    pulse over focus area) and non-negative polarization and solid-angle
    arrays of the pixel shape, [add_correction] turns a non-negative
    pattern of that shape into a non-negative array of the same length:
    the means handed to the Poisson sampler are valid. *)
Theorem add_correction_nonnegative (d d' : DetectorBase) (beam : Beam)
  (pol sa pattern : list R) :
  initialize_pixels_with_beam d beam = (d', Ok tt) ->
  0 <= get_photons_per_pulse beam / get_focus_area beam ->
  polarization_correction d' = Some pol ->
  solid_angle_per_pixel d' = Some sa ->
  Forall (fun v => 0 <= v) pol ->
  Forall (fun v => 0 <= v) sa ->
  length pol = length pattern ->
  length sa = length pattern ->
  Forall (fun v => 0 <= v) pattern ->
  exists means,
    add_correction d' pattern = Ok means
    /\ length means = length pattern
    /\ Forall (fun v => 0 <= v) means.
Proof.
  intros H Hflux Hpol Hsa Hpol0 Hsa0 Hlp Hls Hpat.
  destruct (initialize_pixels_with_beam_ok d d' beam H)
    as (ppr & pdr & pol' & sa' & prod & Harea & _ & Hprod & ->).
  simpl in Hpol, Hsa. injection Hpol as ->. injection Hsa as ->.
  rewrite np_multiply_same_length in Hprod by congruence.
  injection Hprod as <-.
  unfold add_correction. simpl.
  assert (Hlen : length (map (Rmult (intensity_scale beam))
                           (zip_with Rmult pol sa)) = length pattern).
  { rewrite length_map, zip_with_length; congruence. }
  rewrite np_multiply_same_length by congruence.
  eexists. split; [reflexivity|]. split.
  - rewrite zip_with_length; congruence.
  - apply zip_with_nonneg; [exact Hpat|].
    apply Forall_map.
    pose proof (zip_with_nonneg pol sa Hpol0 Hsa0) as Hps.
    pose proof Thomson_factor_pos as HT.
    eapply Forall_impl; [|exact Hps].
    intros v Hv. unfold intensity_scale.
    apply Rmult_le_pos; [apply Rmult_le_pos; lra | exact Hv].
Qed.

(** ** Static noise with a per-pixel [pixel_rms] *)

Lemma uniform_array_spec (highs : list R) :
  forall g : rng,
    snd (uniform_array highs g) = advance (length highs) g
    /\ length (fst (uniform_array highs g)) = length highs
    /\ forall i h, nth_error highs i = Some h ->
         nth_error (fst (uniform_array highs g)) i
         = Some (0 + (h - 0) * tape g (pos g + i)).
Proof.
  induction highs as [|h0 highs IH]; intros g.
  - simpl. split; [|split; [reflexivity|]].
    + unfold advance. destruct g. simpl. f_equal. lia.
    + intros [|i] h; discriminate.
  - simpl. unfold np_random_uniform, random_sample.
    destruct (IH (advance 1 g)) as (Hg & Hl & Hn).
    destruct (uniform_array highs (advance 1 g)) as [xs g2].
    simpl in *. split; [|split].
    + rewrite Hg, advance_advance. reflexivity.
    + rewrite Hl. reflexivity.
    + intros [|i] h Hh; simpl in *.
      * injection Hh as <-. rewrite Nat.add_0_r. reflexivity.
      * rewrite (Hn i h Hh).
        replace (pos g + S i)%nat with (pos g + 1 + i)%nat by lia.
        reflexivity.
Qed.

Lemma no_negative_rms (rs : list R) :
  Forall (fun r => 0 <= r) rs ->
  existsb (fun r => Rltb (3 * r) 0) rs = false.
Proof.
  induction 1 as [|r rs Hr _ IH]; [reflexivity|].
  simpl. rewrite Rltb_false by lra. exact IH.
Qed.

(** X17. For a per-pixel [pixel_rms] (an array of the shape of the
    pattern, no entry negative) [add_static_noise] takes one sample per
    pixel, in order, and adds to entry [i] its own offset
    [2 * sqrt (3 * pixel_rms[i])] times the [i]-th sample, which lies
    between 0 and [2 * sqrt (3 * pixel_rms[i])]: the offsets are drawn
    independently, unlike the single offset of a scalar [pixel_rms]. *)
Theorem add_static_noise_per_pixel (d : DetectorBase) (rs pattern : list R)
  (g : rng) :
  pixel_rms d = Array rs ->
  Forall (fun r => 0 <= r) rs ->
  length rs = length pattern ->
  tape_ok g ->
  exists xs,
    add_static_noise d pattern g
    = Ok (zip_with Rplus pattern xs, advance (length pattern) g)
    /\ length xs = length pattern
    /\ forall i r, nth_error rs i = Some r ->
         exists x,
           nth_error xs i = Some x
           /\ x = 2 * sqrt (3 * r) * tape g (pos g + i)
           /\ 0 <= x <= 2 * sqrt (3 * r).
Proof.
  intros Hrms Hpos Hlen Hg.
  unfold add_static_noise. rewrite Hrms, (no_negative_rms rs Hpos).
  destruct (uniform_array_spec (map (fun r => 2 * sqrt (3 * r)) rs) g)
    as (Hsnd & Hl & Hn).
  destruct (uniform_array (map (fun r => 2 * sqrt (3 * r)) rs) g)
    as [xs g1].
  simpl in Hsnd, Hl, Hn. rewrite length_map in Hsnd, Hl.
  exists xs. split; [|split].
  - unfold np_add, broadcast2.
    rewrite (proj2 (Nat.eqb_eq (length pattern) (length xs))) by congruence.
    cbn [bind]. rewrite Hsnd, Hlen. reflexivity.
  - congruence.
  - intros i r Hr.
    exists (0 + (2 * sqrt (3 * r) - 0) * tape g (pos g + i)).
    split; [|split].
    + apply Hn. rewrite nth_error_map, Hr. reflexivity.
    + ring.
    + pose proof (Hg (pos g + i)%nat) as Hu.
      pose proof (sqrt_pos (3 * r)) as Hs.
      split; nra.
Qed.

(** X19. Until [initialize_pixels_with_beam] has completed,
    [linear_correction] is [None] (as [__init__] leaves it) and every
    method that applies it to a pattern with at least one entry raises
    [TypeError]: [add_correction], [add_correction_and_quantization]
    (before any sample is drawn), and [get_intensity_field] and
    [get_photons] once the kernel has returned such a pattern.  On a
    pattern with no entry nothing is multiplied: [add_correction] returns
    an empty array, and the combined call samples on it. *)
Theorem corrections_need_initialization (d : DetectorBase)
  (particle : Particle) (pattern : list R) (g : rng) :
  linear_correction d = None ->
  linear_correction DetectorBase_init = None
  /\ (pattern <> [] ->
      add_correction d pattern = Err TypeError
      /\ add_correction_and_quantization d pattern g = Err TypeError)
  /\ add_correction d [] = Ok []
  /\ add_correction_and_quantization d [] g = np_random_poisson [] g
  /\ (forall f,
        f <> [] ->
        calculate_diffraction_pattern_gpu (pixel_position_reciprocal d)
          particle rt_intensity = Ok f ->
        get_intensity_field d particle = Err TypeError
        /\ get_photons d particle g = Err TypeError).
Proof.
  intros H.
  assert (Hac : forall p, p <> [] -> add_correction d p = Err TypeError).
  { intros p Hp. unfold add_correction. rewrite H.
    destruct p; [contradiction | reflexivity]. }
  assert (Hacq : forall p g0, p <> [] ->
             add_correction_and_quantization d p g0 = Err TypeError).
  { intros p g0 Hp. unfold add_correction_and_quantization.
    fold (add_correction d p). rewrite (Hac p Hp). reflexivity. }
  split; [reflexivity|]. split; [auto|].
  split; [unfold add_correction; rewrite H; reflexivity|].
  split; [unfold add_correction_and_quantization; rewrite H; reflexivity|].
  intros f Hne Hf. split.
  - unfold get_intensity_field. rewrite Hf. cbn [bind].
    exact (Hac f Hne).
  - unfold get_photons, get_pattern_without_corrections.
    rewrite Hf. cbn [bind]. apply Hacq. exact Hne.
Qed.

End Detector.

Arguments total_count {Particle} particles.
Arguments row_count {Particle} particles.
Arguments expand_state {Particle} particles.
Arguments maxRadius {Particle} atom_pos particles.
Arguments candidate_checkList {Particle} atom_pos particles coords.
Arguments distribute {Particle} atom_pos depth particles
  beam_focus_radius jet_radius g.
Arguments fxs_loop {Particle} calculate_diffraction_pattern_gpu
  d state coords indices raw_data.
Arguments get_fxs_photons {Particle} atom_pos
  calculate_diffraction_pattern_gpu np_random_poisson
  depth d particles beam_focus_radius jet_radius g.
Arguments fxs_reference {Particle} atom_pos
  calculate_diffraction_pattern_gpu np_random_poisson
  depth d particles beam_focus_radius jet_radius g.

(** ** The theorems at the example configurations *)

Lemma half_tape_ok : tape_ok half_tape.
Proof. intros n. simpl. lra. Qed.

Lemma toy_initialize :
  initialize_pixels_with_beam toy_geometry DetectorBase_init toy_beam
  = (toy_detector, Ok tt).
Proof.
  unfold initialize_pixels_with_beam, py_div. simpl get_focus_area.
  destruct (Req_dec_T 1 0) as [H|_]; [lra | reflexivity].
Qed.

Lemma initialize_pixels_with_beam_linear_correction_witness :
  (exists pol sa lc,
      polarization_correction toy_detector = Some pol
      /\ solid_angle_per_pixel toy_detector = Some sa
      /\ linear_correction toy_detector = Some lc
      /\ length lc = (if (length pol =? 1)%nat then length sa else length pol)
      /\ forall i, (i < length lc)%nat ->
           nth i lc 0
           = get_photons_per_pulse toy_beam / get_focus_area toy_beam
             * Thomson_factor * bnth i pol * bnth i sa)
  /\ Thomson_factor = (2.817895019671143 * 1e-15) ^ 2
  /\ Rabs (Thomson_factor - (2.8179 * 1e-15) ^ 2)
     <= 1e-4 * (2.8179 * 1e-15) ^ 2.
Proof.
  exact (initialize_pixels_with_beam_linear_correction
           toy_geometry DetectorBase_init toy_detector toy_beam
           toy_initialize).
Defined.

(** C5 (as stated) fails: on the initialized [toy_detector], whose linear
    correction already holds the polarization and solid-angle factors,
    the three corrections in sequence give 36 times the Thomson factor
    where [add_correction] alone gives 6 times. *)
Lemma corrections_in_sequence_differ :
  initialize_pixels_with_beam toy_geometry DetectorBase_init toy_beam
  = (toy_detector, Ok tt)
  /\ (p1 <- add_solid_angle_correction toy_detector [1];;
      p2 <- add_polarization_correction toy_detector p1;;
      add_correction toy_detector p2)
     <> add_correction toy_detector [1].
Proof.
  split; [exact toy_initialize|].
  cbv [add_solid_angle_correction add_polarization_correction add_correction
       toy_detector solid_angle_per_pixel polarization_correction
       linear_correction np_multiply_attr np_multiply broadcast2 zip_with
       bind length Nat.eqb combine map fst snd].
  intros H. injection H as H.
  pose proof Thomson_factor_pos. lra.
Qed.

Lemma corrections_in_sequence_equal_add_correction_witness :
  (p1 <- add_solid_angle_correction toy_detector [1; 2];;
   p2 <- add_polarization_correction toy_detector p1;;
   Ok (map (fun v => v * intensity_scale toy_beam) p2))
  = add_correction toy_detector [1; 2].
Proof.
  exact (corrections_in_sequence_equal_add_correction
           toy_geometry DetectorBase_init toy_detector toy_beam [1; 2]
           toy_initialize).
Defined.

Lemma distribute_single_particle_witness :
  (forall coords,
      candidate_checkList (fun p : list vec3 => p) [(dimer, 1%Z)] coords = [])
  /\ exists x y z,
      distribute (fun p : list vec3 => p) 1 [(dimer, 1%Z)] 4 5 half_tape
      = Ok ([dimer], [(x, y, z)], advance 3 half_tape)
      /\ - 4 <= x <= 4 /\ - 4 <= y <= 4 /\ - 5 <= z <= 5.
Proof.
  apply (distribute_single_particle (list vec3) (fun p => p) 0
           [(dimer, 1%Z)] 4 5 half_tape).
  - reflexivity.
  - lra.
  - lra.
  - exact half_tape_ok.
Defined.

Lemma get_fxs_photons_no_particle_witness :
  fxs_loop toy_kernel toy_detector (expand_state [(dimer, 0%Z)]) []
    (seq 0 (length (expand_state [(dimer, 0%Z)]))) None
  = Ok None
  /\ get_fxs_photons (fun p : list vec3 => p) toy_kernel toy_poisson
       1000 toy_detector [(dimer, 0%Z)] 4 5 half_tape
     = Err TypeError.
Proof.
  apply (get_fxs_photons_no_particle (list vec3) (fun p => p)
           toy_kernel toy_poisson 999 toy_detector [(dimer, 0%Z)] 4 5
           half_tape).
  repeat constructor.
Defined.



Lemma preferred_voxel_length_raises_witness :
  exists e,
    preferred_voxel_length float_pitch_detector [0; 0; 1] = Err e
    /\ (e = TypeError \/ e = AxisError).
Proof.
  apply (preferred_voxel_length_raises float_pitch_detector [0; 0; 1]).
  simpl. lra.
Defined.

Lemma preferred_reciprocal_mesh_number_raises_witness :
  exists e,
    preferred_reciprocal_mesh_number float_pitch_detector [0; 0; 1] = Err e
    /\ (e = TypeError \/ e = AxisError).
Proof.
  apply (preferred_reciprocal_mesh_number_raises float_pitch_detector
           [0; 0; 1]).
  simpl. lra.
Defined.

(** *** A colliding candidate set that [distribute] returns *)

Lemma maxRadius_two_dimers :
  maxRadius (fun p : list vec3 => p) two_dimers = 1.
Proof.
  unfold maxRadius, two_dimers, dimer, mean_axis0, Rsum.
  cbn [fold_left map fst snd length vsub].
  change (INR 2) with (1 + 1).
  rewrite !(norm3_eq _ _ _ 1) by lra.
  rewrite (Rltb_true 0 1) by lra.
  rewrite (Rltb_false 1 1) by lra.
  reflexivity.
Qed.

Lemma candidate_checkList_pair (c0 c1 : vec3) :
  candidate_checkList (fun p : list vec3 => p) two_dimers [c0; c1]
  = [Rltb (euclidean c0 c1)
       (2 * maxRadius (fun p : list vec3 => p) two_dimers)].
Proof. reflexivity. Qed.

Ltac run_candidates :=
  rewrite distribute_S by (cbv; discriminate); cbv zeta;
  change (row_count two_dimers) with 2%nat;
  rewrite !sample_coords_S;
  cbn [fst snd sample_coords tape pos advance collide_then_apart
       Nat.add nth];
  rewrite candidate_checkList_pair, maxRadius_two_dimers;
  unfold euclidean, vsub.

Lemma collide_then_apart_ok : tape_ok collide_then_apart.
Proof.
  intros n. simpl.
  do 12 (destruct n as [|n]; [simpl; lra|]).
  destruct n; simpl; lra.
Qed.

Lemma distribute_two_dimers (depth : nat) :
  exists c0 c1 g',
    distribute (fun p : list vec3 => p) (S (S depth)) two_dimers 4 4
      collide_then_apart
    = Ok ([dimer; dimer], [c0; c1], g')
    /\ norm3 (vsub c0 c1) < 2.
Proof.
  do 3 eexists. split.
  - run_candidates.
    rewrite (Rltb_true (norm3 _) (2 * 1))
      by (apply norm3_lt; lra).
    cbn [existsb eqb orb].
    run_candidates.
    rewrite (Rltb_false (norm3 _) (2 * 1)) by (apply norm3_ge; lra).
    cbn [existsb eqb orb bind]. reflexivity.
  - unfold vsub. apply norm3_lt; lra.
Qed.

(** C1 (the code at a failing input). Two dimers of exclusion radius 1 in a
    box of half-width 4, with well-formed samples that put the particles
    [sqrt 3] apart at the first attempt and far apart at the second:
    [distribute] resamples, the second attempt has no collision, and the
    call still returns the first candidate set, whose two rows are closer
    than [2 * radius_max]. *)
Theorem distribute_returns_colliding_set :
  tape_ok collide_then_apart
  /\ exists c0 c1 g',
      distribute (fun p : list vec3 => p) 1000 two_dimers 4 4
        collide_then_apart
      = Ok ([dimer; dimer], [c0; c1], g')
      /\ euclidean c0 c1 < 2 * maxRadius (fun p : list vec3 => p) two_dimers
      /\ ~ non_overlapping (maxRadius (fun p : list vec3 => p) two_dimers)
           [c0; c1].
Proof.
  split; [exact collide_then_apart_ok|].
  destruct (distribute_two_dimers 998) as (c0 & c1 & g' & Hrun & Hd).
  exists c0, c1, g'.
  rewrite maxRadius_two_dimers. unfold euclidean.
  split; [exact Hrun | split; [lra|]].
  intros H.
  specialize (H 0%nat 1%nat c0 c1 (Nat.neq_succ_diag_r 0) eq_refl eq_refl).
  unfold euclidean in H. lra.
Qed.

(** *** Two particles a quarter turn apart *)

(** A species of a single atom. *)
Definition point_atom : list vec3 := [(1, 2, 3)].

(** A detector of one pixel at the reciprocal position (0, 0, 2.5e9): a
    particle at height [z] has the phase [pi / 2 * z] there. *)
Definition phase_detector : DetectorBase :=
  mkDetector 1 (PyInt 0) (PyInt 0) 0 (0, 0, 1) None
    (Some [(0, 0, 2.5e9)]) (Some [1]) (Some [1]) (Some [1]) (Some [1])
    (Scalar 0).

(** Samples that put, in a box of radii 4, a first particle at the origin
    and a second one at height 1. *)
Definition quarter_turn_tape : rng :=
  mkRng (fun n => if (n =? 5)%nat then 5 / 8 else 1 / 2) 0.

(** A sampler that gives the nearest of 1, 2 and 3 to each mean. *)
Definition rounding_sampler (lam : list R) (g : rng) : res (list Z * rng) :=
  Ok (map
        (fun m =>
           if Rltb m (3 / 2) then 1%Z
           else if Rltb m (5 / 2) then 2%Z else 3%Z)
        lam,
      advance (length lam) g).

Lemma point_atom_radius :
  maxRadius (fun p : list vec3 => p) [(point_atom, 2%Z)] = 0.
Proof.
  apply (single_atoms_maxRadius (list vec3) (fun p => p)).
  constructor; [|constructor].
  exists (1, 2, 3). reflexivity.
Qed.

Lemma quarter_turn_placement :
  distribute (fun p : list vec3 => p) 1 [(point_atom, 2%Z)] 4 4
    quarter_turn_tape
  = Ok ([point_atom; point_atom],
        [(4 * (-1 + (1 - -1) * (1 / 2)),
          4 * (-1 + (1 - -1) * (1 / 2)),
          4 * (-1 + (1 - -1) * (1 / 2)));
         (4 * (-1 + (1 - -1) * (1 / 2)),
          4 * (-1 + (1 - -1) * (1 / 2)),
          4 * (-1 + (1 - -1) * (5 / 8)))],
        advance 6 quarter_turn_tape).
Proof.
  rewrite (distribute_clear_run (list vec3) (fun p => p) 0).
  - change (row_count [(point_atom, 2%Z)]) with 2%nat.
    rewrite !sample_coords_S. reflexivity.
  - vm_compute. discriminate.
  - apply zero_radius_clear;
      [exact point_atom_radius | apply sample_coords_spec].
Qed.

(** The two unit fields add up to [1 + i]: intensity 2, where the sum
    without the phases would give 4 and a single field 1. *)
Lemma quarter_turn_intensity :
  pixel_intensity [(0, 0, 2.5e9)]
    [([mkC 1 0],
      (4 * (-1 + (1 - -1) * (1 / 2)),
       4 * (-1 + (1 - -1) * (1 / 2)),
       4 * (-1 + (1 - -1) * (1 / 2))));
     ([mkC 1 0],
      (4 * (-1 + (1 - -1) * (1 / 2)),
       4 * (-1 + (1 - -1) * (1 / 2)),
       4 * (-1 + (1 - -1) * (5 / 8))))] 0
  = 2.
Proof.
  unfold pixel_intensity, amplitude_re, amplitude_im, Rsum, phase_angle,
    entry, origin, dot3.
  cbn [map fold_left fst snd re im length Nat.eqb nth].
  replace (2 * PI * 1e-10
           * (0 * (4 * (-1 + (1 - -1) * (1 / 2)))
              + 0 * (4 * (-1 + (1 - -1) * (1 / 2)))
              + 2.5e9 * (4 * (-1 + (1 - -1) * (1 / 2)))))
    with 0 by lra.
  replace (2 * PI * 1e-10
           * (0 * (4 * (-1 + (1 - -1) * (1 / 2)))
              + 0 * (4 * (-1 + (1 - -1) * (1 / 2)))
              + 2.5e9 * (4 * (-1 + (1 - -1) * (5 / 8)))))
    with (PI / 2) by lra.
  rewrite cos_0, sin_0, cos_PI2, sin_PI2. lra.
Qed.

Lemma get_fxs_photons_coherent_sum_witness :
  get_fxs_photons (fun p : list vec3 => p) toy_kernel rounding_sampler
    1 phase_detector [(point_atom, 2%Z)] 4 4 quarter_turn_tape
  = Ok ([2%Z], advance 7 quarter_turn_tape).
Proof.
  apply (proj2 (get_fxs_photons_coherent_sum (list vec3) (fun p => p)
                  toy_kernel rounding_sampler 1 phase_detector
                  [(point_atom, 2%Z)] 4 4 quarter_turn_tape
                  ([2%Z], advance 7 quarter_turn_tape))).
  unfold fxs_reference.
  rewrite quarter_turn_placement.
  cbn [bind pair_up length Nat.eqb combine map fst snd sequence
       get_pattern_without_corrections toy_kernel np_dot_attr
       pixel_position_reciprocal phase_detector shapes_agree forallb
       orb andb seq].
  match goal with
  | |- add_correction_and_quantization _ _ [?x] _ = _ =>
      replace x with 2 by (symmetry; exact quarter_turn_intensity)
  end.
  unfold add_correction_and_quantization, rounding_sampler.
  cbn [linear_correction phase_detector np_multiply_attr np_multiply
       broadcast2 length Nat.eqb zip_with combine map fst snd bind].
  rewrite (Rltb_false (2 * 1) (3 / 2)) by lra.
  rewrite (Rltb_true (2 * 1) (5 / 2)) by lra.
  reflexivity.
Defined.

Lemma add_correction_and_quantization_sequential_witness :
  add_correction_and_quantization toy_poisson toy_detector [1] half_tape
  = (corrected <- add_correction toy_detector [1];;
     add_quantization toy_poisson corrected half_tape)
  /\ add_correction_and_quantization toy_poisson toy_detector [1] half_tape
     = match linear_correction toy_detector with
       | None =>
           match [1] with
           | [] => toy_poisson [] half_tape
           | _ :: _ => Err TypeError
           end
       | Some lc =>
           means <- np_multiply [1] lc;;
           toy_poisson means half_tape
       end.
Proof.
  exact (add_correction_and_quantization_sequential toy_poisson toy_detector
           [1] half_tape).
Defined.

(** ** The further properties at example configurations *)

Arguments first_candidate_clear {Particle} atom_pos particles
  beam_focus_radius jet_radius g.

(** The row three samples of [half_tape] give in a box of radii 4 and 5. *)
Definition centre_row : vec3 :=
  (4 * (-1 + (1 - -1) * (1 / 2)),
   4 * (-1 + (1 - -1) * (1 / 2)),
   5 * (-1 + (1 - -1) * (1 / 2))).

(** A detector on which [np.min] accepts the pixel height as an axis. *)
Definition axis_detector : DetectorBase :=
  mkDetector 1 (PyFloat 1e-4) (PyInt 0) 1e-8 (0, 0, 1)
    None None (Some [1; 2]) None None None (Scalar 0).

(** A geometry routine whose correction arrays do not broadcast. *)
Definition ragged_geometry (_ : option (list vec3)) (_ _ : vec3) (_ : R)
  (_ : vec3) : res (list vec3 * list R * list R * list R) :=
  Ok ([(0, 0, 1)], [1], [3; 4], [2; 5; 6]).

Definition per_pixel_detector : DetectorBase :=
  mkDetector 1 (PyInt 0) (PyInt 0) 0 (0, 0, 1)
    None None None None None None (Array [3; 12]).

Lemma maxRadius_is_maximum_witness :
  0 <= maxRadius (fun p : list vec3 => p) two_dimers
  /\ (forall p c a,
        In (p, c) two_dimers -> In a p ->
        norm3 (vsub a (mean_axis0 p))
        <= maxRadius (fun p : list vec3 => p) two_dimers)
  /\ (maxRadius (fun p : list vec3 => p) two_dimers = 0
      \/ exists p c a,
          In (p, c) two_dimers /\ In a p
          /\ maxRadius (fun p : list vec3 => p) two_dimers
             = norm3 (vsub a (mean_axis0 p))).
Proof.
  exact (maxRadius_is_maximum (list vec3) (fun p => p) two_dimers).
Defined.

Lemma single_dimer_run :
  distribute (fun p : list vec3 => p) 1 [(dimer, 1%Z)] 4 5 half_tape
  = Ok ([dimer], [centre_row], advance 3 half_tape).
Proof. exact (distribute_single_run (list vec3) (fun p => p) 0
                [(dimer, 1%Z)] 4 5 half_tape eq_refl). Qed.

Lemma distribute_returns_first_attempt_witness :
  [dimer] = expand_state [(dimer, 1%Z)]
  /\ (0 <= total_count [(dimer, 1%Z)])%Z
  /\ Z.of_nat (length [centre_row]) = total_count [(dimer, 1%Z)]
  /\ (length [centre_row] <= length [dimer])%nat
  /\ (Forall (fun pc => (0 <= snd pc)%Z) [(dimer, 1%Z)] ->
      length [dimer] = length [centre_row])
  /\ (Exists (fun pc => (snd pc < 0)%Z) [(dimer, 1%Z)] ->
      (length [centre_row] < length [dimer])%nat)
  /\ [centre_row]
     = fst (sample_coords (row_count [(dimer, 1%Z)]) 4 5 half_tape)
  /\ (exists k, (1 <= k <= 1)%nat
        /\ advance 3 half_tape
           = advance (3 * row_count [(dimer, 1%Z)] * k) half_tape)
  /\ (non_overlapping (maxRadius (fun p : list vec3 => p) [(dimer, 1%Z)])
        [centre_row]
      <-> first_candidate_clear (fun p : list vec3 => p)
            [(dimer, 1%Z)] 4 5 half_tape).
Proof.
  exact (distribute_returns_first_attempt (list vec3) (fun p => p) 1
           [(dimer, 1%Z)] 4 5 half_tape (advance 3 half_tape)
           [dimer] [centre_row] single_dimer_run).
Defined.

Lemma distribute_in_box_witness :
  Forall (in_box 4 5) [centre_row].
Proof.
  apply (distribute_in_box (list vec3) (fun p => p) 1 [(dimer, 1%Z)]
           4 5 half_tape (advance 3 half_tape) [dimer] [centre_row]).
  - lra.
  - lra.
  - exact half_tape_ok.
  - exact single_dimer_run.
Defined.

Lemma apart_candidate_clear :
  first_candidate_clear (fun p : list vec3 => p) two_dimers 4 4
    (advance 6 collide_then_apart).
Proof.
  unfold first_candidate_clear.
  change (row_count two_dimers) with 2%nat.
  rewrite !sample_coords_S.
  cbn [fst snd sample_coords tape pos advance collide_then_apart
       Nat.add nth].
  rewrite candidate_checkList_pair, maxRadius_two_dimers.
  unfold euclidean, vsub.
  rewrite (Rltb_false (norm3 _) (2 * 1)) by (apply norm3_ge; lra).
  reflexivity.
Qed.

Lemma distribute_accepts_clear_candidate_witness :
  distribute (fun p : list vec3 => p) 1 two_dimers 4 4
    (advance 6 collide_then_apart)
  = Ok (expand_state two_dimers,
        fst (sample_coords (row_count two_dimers) 4 4
               (advance 6 collide_then_apart)),
        advance (3 * row_count two_dimers) (advance 6 collide_then_apart))
  /\ non_overlapping (maxRadius (fun p : list vec3 => p) two_dimers)
       (fst (sample_coords (row_count two_dimers) 4 4
               (advance 6 collide_then_apart))).
Proof.
  apply (distribute_accepts_clear_candidate (list vec3) (fun p => p) 0
           two_dimers 4 4 (advance 6 collide_then_apart)).
  - vm_compute. discriminate.
  - exact apart_candidate_clear.
Defined.

Lemma one_frame_collision :
  distribute (fun p : list vec3 => p) 1 two_dimers 4 4 collide_then_apart
  = Err RecursionError.
Proof.
  run_candidates.
  rewrite (Rltb_true (norm3 _) (2 * 1)) by (apply norm3_lt; lra).
  reflexivity.
Qed.

Lemma distribute_raises_ValueError_or_RecursionError_witness :
  ((total_count two_dimers < 0)%Z /\ RecursionError = ValueError)
  \/ ((0 <= total_count two_dimers)%Z
      /\ RecursionError = RecursionError
      /\ ~ first_candidate_clear (fun p : list vec3 => p) two_dimers 4 4
             collide_then_apart).
Proof.
  exact (distribute_raises_ValueError_or_RecursionError (list vec3)
           (fun p => p) 0 two_dimers 4 4 collide_then_apart RecursionError
           one_frame_collision).
Defined.

Lemma distribute_unsatisfiable_witness :
  distribute (fun p : list vec3 => p) 1000 two_dimers (1 / 2) (1 / 2)
    half_tape
  = Err RecursionError.
Proof.
  apply (distribute_unsatisfiable (list vec3) (fun p => p) 1000 two_dimers
           (1 / 2) (1 / 2) half_tape).
  - vm_compute. discriminate.
  - lra.
  - lra.
  - exact half_tape_ok.
  - rewrite maxRadius_two_dimers. lra.
Defined.

Lemma distribute_single_atoms_never_resamples_witness :
  maxRadius (fun p : list vec3 => p) [(point_atom, 3%Z)] = 0
  /\ distribute (fun p : list vec3 => p) 1 [(point_atom, 3%Z)] 4 5
       half_tape
     = Ok (expand_state [(point_atom, 3%Z)],
           fst (sample_coords (row_count [(point_atom, 3%Z)]) 4 5
                  half_tape),
           advance (3 * row_count [(point_atom, 3%Z)]) half_tape).
Proof.
  apply (distribute_single_atoms_never_resamples (list vec3) (fun p => p) 0
           [(point_atom, 3%Z)] 4 5 half_tape).
  - constructor; [|constructor].
    exists (1, 2, 3). reflexivity.
  - vm_compute. discriminate.
Defined.

Lemma get_fxs_photons_single_particle_witness :
  get_fxs_photons (fun p : list vec3 => p) toy_kernel toy_poisson
    1 toy_detector [(dimer, 1%Z)] 4 5 half_tape
  = add_correction_and_quantization toy_poisson toy_detector
      (map squared_magnitude [mkC 1 0]) (advance 3 half_tape).
Proof.
  exact (get_fxs_photons_single_particle (list vec3) (fun p => p)
           toy_kernel toy_poisson 0 toy_detector [(dimer, 1%Z)] dimer
           4 5 half_tape [(0, 0, 1)] [mkC 1 0]
           eq_refl eq_refl eq_refl eq_refl eq_refl).
Defined.

Lemma get_fxs_photons_coincident_pair_witness :
  get_fxs_photons (fun p : list vec3 => p) toy_kernel toy_poisson
    1 toy_detector [(point_atom, 2%Z)] 4 5 half_tape
  = add_correction_and_quantization toy_poisson toy_detector
      (map (fun z => 4 * squared_magnitude z) [mkC 1 0])
      (advance 6 half_tape).
Proof.
  exact (get_fxs_photons_coincident_pair (list vec3) (fun p => p)
           toy_kernel toy_poisson 0 toy_detector [(point_atom, 2%Z)]
           point_atom 4 5 half_tape [(0, 0, 1)] [mkC 1 0]
           eq_refl eq_refl point_atom_radius eq_refl eq_refl eq_refl
           eq_refl eq_refl eq_refl).
Defined.

(** Two dimers are asked for and one point atom is taken back: two
    entries in the particle list, one row of coordinates. *)
Definition one_too_many : list (list vec3 * Z) :=
  [(dimer, 2%Z); (point_atom, (-1)%Z)].

Lemma get_fxs_photons_exceptions_witness :
  (forall e,
      get_fxs_photons (fun p : list vec3 => p) toy_kernel toy_poisson
        1 toy_detector one_too_many 4 5 half_tape = Err e ->
      e = RecursionError \/ e = TypeError \/ e = ValueError
      \/ (e = IndexError
          /\ Exists (fun pc : list vec3 * Z => (snd pc < 0)%Z) one_too_many)
      \/ (exists q p, toy_kernel q p rt_complex_field = Err e)
      \/ (exists lam g1, toy_poisson lam g1 = Err e))
  /\ (Exists (fun pc : list vec3 * Z => (snd pc < 0)%Z) one_too_many ->
      exists e,
        get_fxs_photons (fun p : list vec3 => p) toy_kernel toy_poisson
          1 toy_detector one_too_many 4 5 half_tape = Err e).
Proof.
  exact (get_fxs_photons_exceptions (list vec3) (fun p => p)
           toy_kernel toy_poisson 1 toy_detector one_too_many 4 5
           half_tape).
Defined.

(** On that mapping the exception is the [IndexError] of [coords[1]]. *)
Lemma one_too_many_raises :
  get_fxs_photons (fun p : list vec3 => p) toy_kernel toy_poisson
    1 toy_detector one_too_many 4 5 half_tape
  = Err IndexError.
Proof.
  unfold get_fxs_photons.
  rewrite distribute_single_run by reflexivity.
  reflexivity.
Qed.

Lemma preferred_voxel_length_returns_witness :
  preferred_voxel_length axis_detector [0; 0; 1]
  = Ok (sqrt (Rsum (map (fun x => x * x) [0; 0; 1]))
        / (distance axis_detector * pynum_val (pixel_width axis_detector))).
Proof.
  apply (proj2 (preferred_voxel_length_returns axis_detector [0; 0; 1] _)).
  split; [left; reflexivity|]. split; [simpl; lra | reflexivity].
Defined.

Lemma initialize_pixels_with_beam_overrides_witness :
  initialize_pixels_with_beam toy_geometry toy_detector toy_beam
  = (toy_detector, Ok tt)
  /\ same_static DetectorBase_init toy_detector.
Proof.
  exact (initialize_pixels_with_beam_overrides toy_geometry
           DetectorBase_init toy_detector toy_detector toy_beam toy_beam
           toy_initialize toy_initialize).
Defined.

Lemma ragged_initialize :
  initialize_pixels_with_beam ragged_geometry toy_detector toy_beam
  = (set_reciprocal toy_detector [(0, 0, 1)] [1] [3; 4] [2; 5; 6],
     Err ValueError).
Proof.
  unfold initialize_pixels_with_beam, py_div. simpl get_focus_area.
  destruct (Req_dec_T 1 0) as [H|_]; [lra | reflexivity].
Qed.

Lemma initialize_pixels_with_beam_failure_witness :
  linear_correction
    (set_reciprocal toy_detector [(0, 0, 1)] [1] [3; 4] [2; 5; 6])
  = linear_correction toy_detector
  /\ same_static toy_detector
       (set_reciprocal toy_detector [(0, 0, 1)] [1] [3; 4] [2; 5; 6])
  /\ (set_reciprocal toy_detector [(0, 0, 1)] [1] [3; 4] [2; 5; 6]
      = toy_detector
      \/ exists ppr pdr pol sa,
          ValueError = ValueError
          /\ ragged_geometry (pixel_position toy_detector)
               (Polarization toy_beam) (get_wavevector toy_beam)
               (pixel_area toy_detector) (orientation toy_detector)
             = Ok (ppr, pdr, pol, sa)
          /\ np_multiply pol sa = Err ValueError
          /\ set_reciprocal toy_detector [(0, 0, 1)] [1] [3; 4] [2; 5; 6]
             = set_reciprocal toy_detector ppr pdr pol sa).
Proof.
  exact (initialize_pixels_with_beam_failure ragged_geometry toy_detector
           _ toy_beam ValueError ragged_initialize).
Defined.

Lemma solid_angle_polarization_commute_witness :
  (p1 <- add_solid_angle_correction toy_detector [1];;
   add_polarization_correction toy_detector p1)
  = (p1 <- add_polarization_correction toy_detector [1];;
     add_solid_angle_correction toy_detector p1).
Proof.
  exact (solid_angle_polarization_commute toy_detector [1] eq_refl eq_refl).
Defined.

Lemma add_correction_nonnegative_witness :
  exists means,
    add_correction toy_detector [1] = Ok means
    /\ length means = length [1]
    /\ Forall (fun v => 0 <= v) means.
Proof.
  apply (add_correction_nonnegative toy_geometry DetectorBase_init
           toy_detector toy_beam [3] [2] [1] toy_initialize).
  - simpl. lra.
  - reflexivity.
  - reflexivity.
  - constructor; [lra | constructor].
  - constructor; [lra | constructor].
  - reflexivity.
  - reflexivity.
  - constructor; [lra | constructor].
Defined.

Lemma add_static_noise_per_pixel_witness :
  exists xs,
    add_static_noise per_pixel_detector [1; 2] half_tape
    = Ok (zip_with Rplus [1; 2] xs, advance (length [1; 2]) half_tape)
    /\ length xs = length [1; 2]
    /\ forall i r, nth_error [3; 12] i = Some r ->
         exists x,
           nth_error xs i = Some x
           /\ x = 2 * sqrt (3 * r) * tape half_tape (pos half_tape + i)
           /\ 0 <= x <= 2 * sqrt (3 * r).
Proof.
  apply (add_static_noise_per_pixel per_pixel_detector [3; 12] [1; 2]
           half_tape).
  - reflexivity.
  - repeat constructor; lra.
  - reflexivity.
  - exact half_tape_ok.
Defined.

Lemma corrections_need_initialization_witness :
  linear_correction DetectorBase_init = None
  /\ ([1] <> [] ->
      add_correction DetectorBase_init [1] = Err TypeError
      /\ add_correction_and_quantization toy_poisson DetectorBase_init [1]
           half_tape = Err TypeError)
  /\ add_correction DetectorBase_init [] = Ok []
  /\ add_correction_and_quantization toy_poisson DetectorBase_init []
       half_tape = toy_poisson [] half_tape
  /\ (forall f,
        f <> [] ->
        toy_kernel (pixel_position_reciprocal DetectorBase_init)
          dimer rt_intensity = Ok f ->
        get_intensity_field (list vec3) toy_kernel DetectorBase_init dimer
        = Err TypeError
        /\ get_photons (list vec3) toy_kernel toy_poisson DetectorBase_init
             dimer half_tape = Err TypeError).
Proof.
  exact (corrections_need_initialization (list vec3) toy_kernel toy_poisson
           DetectorBase_init dimer [1] half_tape eq_refl).
Defined.

(** ** The detector effects and their accessors *)

Module Calibration.

Import String.

(** The instance attributes by name, the latest assignment first.  An
    attribute that was never assigned is absent, and reading it is an
    [AttributeError] ([None] here). *)
Definition attributes : Type := list (String.string * pyvalue).

Definition getattr (self : attributes) (name : String.string)
  : option pyvalue :=
  match find (fun kv => String.eqb (fst kv) name) self with
  | Some kv => Some (snd kv)
  | None => None
  end.




Definition pixel_rms (self : attributes) : option pyvalue :=
  getattr self "_pixel_rms"%string.








End Calibration.
